(** * Cheapest flights within K stops: a model of [cheapest_flights.cpp]

    The development embeds [findCheapestPrice] (a cost-ordered search over
    (city, stops) states) and proves its bounds safety, termination and
    functional correctness for every implementation of the priority queue.

    Data follow the source: [int] is a 32-bit two's complement integer kept
    as a [Z] (additions wrap around, as they do on the usual targets; the
    language itself leaves signed overflow undefined), [std::vector] is a
    [list] whose out-of-range accesses are faults, and
    [std::priority_queue] is an interface with the guarantees the standard
    gives, so that nothing depends on how ties between equal costs are
    broken. *)

From Stdlib Require Import ZArith Lia.
From stdpp Require Import base tactics option list strings gmap pretty.

Local Open Scope Z_scope.

(** ** Machine integers *)

Definition INT_MAX : Z := 2147483647.
Definition INT_MIN : Z := -2147483648.

(** Reduction of a mathematical integer to the 32-bit signed range. *)
Definition wrap (z : Z) : Z := (z - INT_MIN) `mod` 4294967296 + INT_MIN.

(** [a + b] on [int]. *)
Definition int_add (a b : Z) : Z := wrap (a + b).

Definition in_int (z : Z) : Prop := INT_MIN ≤ z ≤ INT_MAX.

(** ** Vectors *)

(** [v[i]]: defined only for [0 <= i < v.size()]. *)
Definition vec_at {A} (v : list A) (i : Z) : option A :=
  if decide (0 ≤ i) then v !! Z.to_nat i else None.

(** [std::vector<A>(count, x)]: a negative [int] count converts to a size
    above [max_size()] and the constructor throws. *)
Definition vec_make {A} (count : Z) (x : A) : option (list A) :=
  if decide (0 ≤ count) then Some (replicate (Z.to_nat count) x) else None.

(** ** Edges and frontier entries *)

Record Edge := { to : Z; cost : Z }.

(** [{cost, city, stops}] *)
Definition FlightTuple : Type := Z * Z * Z.

Definition t_cost (t : FlightTuple) : Z := t.1.1.
Definition t_city (t : FlightTuple) : Z := t.1.2.
Definition t_stops (t : FlightTuple) : Z := t.2.

(** [CompareFlight::operator()] *)
Definition CompareFlight (a b : FlightTuple) : bool :=
  bool_decide (t_cost a > t_cost b).

(** ** The priority queue

    [std::priority_queue<FlightTuple, std::vector<FlightTuple>, CompareFlight>]:
    [pq_pop] is [top()] followed by [pop()].  The element served is one that
    [CompareFlight] ranks before no other element; which of several such
    elements is served is left to the implementation. *)
Class PriorityQueue := {
  pq_t : Type;
  pq_new : pq_t;
  pq_push : FlightTuple → pq_t → pq_t;
  pq_pop : pq_t → option (FlightTuple * pq_t);
  pq_items : pq_t → list FlightTuple;
  pq_items_new : pq_items pq_new = [];
  pq_items_push x q : pq_items (pq_push x q) ≡ₚ x :: pq_items q;
  pq_pop_empty q : pq_items q = [] → pq_pop q = None;
  pq_pop_nonempty q : pq_items q ≠ [] → is_Some (pq_pop q);
  pq_pop_top q x q' :
    pq_pop q = Some (x, q') →
    pq_items q ≡ₚ x :: pq_items q' ∧
    Forall (λ y, CompareFlight x y = false) (pq_items q');
}.

(** The result of a call: a returned [int], or a fault (an out-of-range
    vector access, or the exception of a vector constructor). *)
Inductive outcome := Ret (v : Z) | Fault.

(** ** A loop combinator

    [while_fuel body i st] runs at most [i] iterations of [body];
    [while_pow2 body d st] runs at most [2 ^ d] of them and stops at the
    first result. *)
Section Loop.
Context {S R : Type} (body : S → S + R).

Fixpoint while_fuel (i : nat) (st : S) : S + R :=
  match i with
  | O => inl st
  | Datatypes.S i' =>
      match body st with
      | inl st' => while_fuel i' st'
      | inr r => inr r
      end
  end.

Fixpoint while_pow2 (d : nat) (st : S) : S + R :=
  match d with
  | O => body st
  | Datatypes.S d' =>
      match while_pow2 d' st with
      | inl st' => while_pow2 d' st'
      | inr r => inr r
      end
  end.

End Loop.

(** ** The search *)

Definition sum_Z (l : list Z) : Z := foldr Z.add 0 l.

(** Total distance of the table entries from [INT_MIN]. *)
Definition slack (dist : list (list Z)) : Z :=
  sum_Z ((λ row, sum_Z ((λ d, d - INT_MIN) <$> row)) <$> dist).

(** [adj[flight[0]].push_back({flight[1], flight[2]})] *)
Definition add_flight (adj : list (list Edge)) (flight : list Z)
  : option (list (list Edge)) :=
  u ← vec_at flight 0;
  v ← vec_at flight 1;
  w ← vec_at flight 2;
  es ← vec_at adj u;
  Some (<[Z.to_nat u := es ++ [{| to := v; cost := w |}]]> adj).

Fixpoint build_adj (flights : list (list Z)) (adj : list (list Edge))
  : option (list (list Edge)) :=
  match flights with
  | [] => Some adj
  | flight :: rest => adj' ← add_flight adj flight; build_adj rest adj'
  end.

(** [dist[city][stops]] *)
Definition cell (dist : list (list Z)) (city stops : Z) : option Z :=
  row ← vec_at dist city; vec_at row stops.

(** [dist[city][stops] = x], on indices already read. *)
Definition set_cell (dist : list (list Z)) (city stops x : Z) : list (list Z) :=
  alter (λ row, <[Z.to_nat stops := x]> row) (Z.to_nat city) dist.

Section Search.
Context {PQ : PriorityQueue}.

Definition search_state : Type := pq_t * list (list Z).

(** The body of the loop over [adj[current_city]]. *)
Definition relax (current_cost current_stops : Z) (edge : Edge)
    (st : search_state) : option search_state :=
  let next_city := to edge in
  let flight_cost := cost edge in
  let new_cost := int_add current_cost flight_cost in
  let next_stops := int_add current_stops 1 in
  old ← cell st.2 next_city next_stops;
  if decide (new_cost < old)
  then Some (pq_push (new_cost, next_city, next_stops) st.1,
             set_cell st.2 next_city next_stops new_cost)
  else Some st.

Fixpoint relax_all (current_cost current_stops : Z) (edges : list Edge)
    (st : search_state) : option search_state :=
  match edges with
  | [] => Some st
  | edge :: rest =>
      st' ← relax current_cost current_stops edge st;
      relax_all current_cost current_stops rest st'
  end.

(** One iteration of [while (!pq.empty())], the emptiness test included. *)
Definition while_step (adj : list (list Edge)) (dst k : Z)
    (st : search_state) : search_state + outcome :=
  match pq_pop st.1 with
  | None => inr (Ret (-1))
  | Some ((current_cost, current_city, current_stops), pq') =>
      if decide (current_city = dst) then inr (Ret current_cost)
      else if decide (current_stops > k) then inl (pq', st.2)
      else
        match vec_at adj current_city with
        | None => inr Fault
        | Some edges =>
            match relax_all current_cost current_stops edges (pq', st.2) with
            | None => inr Fault
            | Some st' => inl st'
            end
        end
  end.

(** Steps 1 and 2 of the source: the adjacency list, the seeded queue and
    the table. *)
Definition init_search (n : Z) (flights : list (list Z)) (src k : Z)
  : option (list (list Edge) * search_state) :=
  adj0 ← vec_make n [];
  adj ← build_adj flights adj0;
  row ← vec_make (int_add k 2) INT_MAX;
  dist ← vec_make n row;
  _ ← cell dist src 0;
  Some (adj, (pq_push (0, src, 0) pq_new, set_cell dist src 0 0)).

(** A bound on the iterations left: every push lowers a table entry. *)
Definition potential (st : search_state) : Z :=
  Z.of_nat (length (pq_items st.1)) + slack st.2.

Definition depth (st : search_state) : nat :=
  Z.to_nat (Z.log2_up (potential st + 1)).

(** The loop runs for at most [2 ^ depth] iterations, which is never
    reached (see [search_ends]); the last branch is there for totality. *)
Definition findCheapestPrice (n : Z) (flights : list (list Z))
    (src dst k : Z) : outcome :=
  match init_search n flights src k with
  | None => Fault
  | Some (adj, st) =>
      match while_pow2 (while_step adj dst k) (depth st) st with
      | inr r => r
      | inl _ => Fault
      end
  end.

End Search.

(** ** A list implementation of the queue

    Entries are kept newest first; among the cheapest the newest is served. *)

Fixpoint extract_min (q : list FlightTuple)
  : option (FlightTuple * list FlightTuple) :=
  match q with
  | [] => None
  | x :: q' =>
      match extract_min q' with
      | None => Some (x, [])
      | Some (y, r) =>
          if CompareFlight x y then Some (y, x :: r) else Some (x, q')
      end
  end.

Lemma extract_min_nil q : extract_min q = None ↔ q = [].
Proof.
  destruct q as [|x q]; simpl; [done|].
  split; [|done].
  destruct (extract_min q) as [[y r]|]; [|done].
  by destruct (CompareFlight x y).
Qed.

Lemma extract_min_top q x r :
  extract_min q = Some (x, r) →
  q ≡ₚ x :: r ∧ Forall (λ y, CompareFlight x y = false) r.
Proof.
  revert x r. induction q as [|a q IH]; intros x r; simpl; [done|].
  destruct (extract_min q) as [[y s]|] eqn:E.
  - destruct (IH _ _ eq_refl) as [Hp Hf].
    destruct (CompareFlight a y) eqn:C; intros [= <- <-].
    + split; [rewrite Hp; apply Permutation_swap|].
      constructor.
      * unfold CompareFlight in *. apply bool_decide_eq_false.
        apply bool_decide_eq_true in C. lia.
      * eapply Forall_impl; [exact Hf|]. simpl. intros z Hz.
        unfold CompareFlight in *. apply bool_decide_eq_false.
        apply bool_decide_eq_false in Hz. lia.
    + split; [done|].
      apply (Permutation_Forall (symmetry Hp)). constructor; [done|].
      eapply Forall_impl; [exact Hf|]. simpl. intros z Hz.
      unfold CompareFlight in *. apply bool_decide_eq_false.
      apply bool_decide_eq_false in Hz, C. lia.
  - intros [= <- <-]. apply extract_min_nil in E as ->. by split.
Qed.

Lemma extract_min_some q : q ≠ [] → is_Some (extract_min q).
Proof.
  intros Hq. destruct (extract_min q) eqn:E; [done|].
  by apply extract_min_nil in E.
Qed.

Definition ListQueue : PriorityQueue := {|
  pq_t := list FlightTuple;
  pq_new := [];
  pq_push x q := x :: q;
  pq_pop := extract_min;
  pq_items q := q;
  pq_items_new := eq_refl;
  pq_items_push x q := reflexivity (x :: q);
  pq_pop_empty q := proj2 (extract_min_nil q);
  pq_pop_nonempty := extract_min_some;
  pq_pop_top := extract_min_top;
|}.

(** ** Machine integers: basic facts *)

Lemma wrap_in_int z : in_int (wrap z).
Proof.
  unfold in_int, wrap, INT_MIN, INT_MAX.
  pose proof (Z.mod_pos_bound (z - -2147483648) 4294967296). lia.
Qed.

Lemma wrap_exact z : in_int z → wrap z = z.
Proof.
  unfold in_int, wrap, INT_MIN, INT_MAX. intros Hz.
  rewrite Z.mod_small; lia.
Qed.

Lemma int_add_in_int a b : in_int (int_add a b).
Proof. apply wrap_in_int. Qed.

Lemma int_add_exact a b : in_int (a + b) → int_add a b = a + b.
Proof. apply wrap_exact. Qed.

(** ** Vectors: basic facts *)

Lemma vec_at_Some {A} (v : list A) i x :
  vec_at v i = Some x ↔ 0 ≤ i ∧ v !! Z.to_nat i = Some x.
Proof.
  unfold vec_at. case_decide as Hi; split.
  - by intros ->.
  - by intros [_ ->].
  - done.
  - by intros [? _].
Qed.

Lemma vec_at_is_Some {A} (v : list A) i :
  0 ≤ i < Z.of_nat (length v) → is_Some (vec_at v i).
Proof.
  intros Hi. unfold vec_at. rewrite decide_True by lia.
  apply lookup_lt_is_Some. lia.
Qed.

Lemma vec_make_Some {A} count (x : A) v :
  vec_make count x = Some v ↔ 0 ≤ count ∧ v = replicate (Z.to_nat count) x.
Proof.
  unfold vec_make. case_decide as Hc; split.
  - by intros [= <-].
  - by intros [_ ->].
  - done.
  - by intros [? _].
Qed.

(** ** The table: shape, reads and writes *)

(** [n] rows of [cols] entries. *)
Definition table_shape (n cols : Z) (dist : list (list Z)) : Prop :=
  Z.of_nat (length dist) = n ∧ Forall (λ row, Z.of_nat (length row) = cols) dist.

Lemma cell_Some dist v s d :
  cell dist v s = Some d ↔
  ∃ row, 0 ≤ v ∧ 0 ≤ s ∧ dist !! Z.to_nat v = Some row ∧ row !! Z.to_nat s = Some d.
Proof.
  unfold cell. split.
  - intros H. apply bind_Some in H as (row & Hr & Hd).
    apply vec_at_Some in Hr as [? ?]. apply vec_at_Some in Hd as [? ?].
    by exists row.
  - intros (row & ? & ? & Hr & Hd). apply bind_Some. exists row.
    split; apply vec_at_Some; done.
Qed.

Lemma cell_is_Some n cols dist v s :
  table_shape n cols dist → 0 ≤ v < n → 0 ≤ s < cols → is_Some (cell dist v s).
Proof.
  intros [Hn Hrows] Hv Hs.
  destruct (lookup_lt_is_Some_2 dist (Z.to_nat v)) as [row Hrow]; [lia|].
  assert (Z.of_nat (length row) = cols) as Hlen.
  { eapply Forall_lookup_1 in Hrows; [|exact Hrow]. done. }
  destruct (lookup_lt_is_Some_2 row (Z.to_nat s)) as [d Hd]; [lia|].
  exists d. apply cell_Some. exists row. repeat split; [lia|lia|done|done].
Qed.

Lemma cell_bound n cols dist v s d :
  table_shape n cols dist → cell dist v s = Some d → 0 ≤ v < n ∧ 0 ≤ s < cols.
Proof.
  intros [Hn Hrows] (row & Hv & Hs & Hrow & Hd)%cell_Some.
  assert (Z.of_nat (length row) = cols) as Hlen.
  { eapply Forall_lookup_1 in Hrows; [|exact Hrow]. done. }
  apply lookup_lt_Some in Hrow, Hd. lia.
Qed.

Lemma set_cell_shape n cols dist v s x :
  table_shape n cols dist → table_shape n cols (set_cell dist v s x).
Proof.
  intros [Hn Hrows]. unfold set_cell. split.
  - by rewrite length_alter.
  - apply Forall_lookup_2. intros i row Hrow.
    destruct (decide (i = Z.to_nat v)) as [->|Hne].
    + rewrite list_lookup_alter_eq in Hrow.
      destruct (dist !! Z.to_nat v) as [row0|] eqn:E; simplify_eq/=.
      rewrite length_insert. by eapply (Forall_lookup_1 _ _ _ _ Hrows).
    + rewrite list_lookup_alter_ne in Hrow by done.
      by eapply (Forall_lookup_1 _ _ _ _ Hrows).
Qed.

Lemma cell_set_cell_eq dist v s x old :
  cell dist v s = Some old → cell (set_cell dist v s x) v s = Some x.
Proof.
  intros (row & Hv & Hs & Hrow & Hd)%cell_Some. apply cell_Some.
  exists (<[Z.to_nat s := x]> row). repeat split; [done|done| |].
  - unfold set_cell. rewrite list_lookup_alter_eq, Hrow. done.
  - apply list_lookup_insert_eq. by eapply lookup_lt_Some.
Qed.

Lemma cell_set_cell_ne dist v s x v' s' :
  0 ≤ v → 0 ≤ s → (v', s') ≠ (v, s) →
  cell (set_cell dist v s x) v' s' = cell dist v' s'.
Proof.
  intros Hv Hs Hne. unfold cell, vec_at, set_cell.
  destruct (decide (0 ≤ v')); [|done].
  destruct (decide (Z.to_nat v' = Z.to_nat v)) as [Heq|Hneq].
  - assert (v' = v) as -> by lia.
    rewrite list_lookup_alter_eq.
    destruct (dist !! Z.to_nat v) as [row|]; simpl; [|done].
    destruct (decide (0 ≤ s')); [|done].
    rewrite list_lookup_insert_ne; [done|].
    intros Heq'. apply Hne. f_equal. lia.
  - rewrite list_lookup_alter_ne by done. done.
Qed.

(** ** Sums over the table *)

Definition row_slack (row : list Z) : Z := sum_Z ((λ d, d - INT_MIN) <$> row).

Lemma slack_eq dist : slack dist = sum_Z (row_slack <$> dist).
Proof. done. Qed.

Lemma sum_Z_insert (f : Z → Z) (l : list Z) i old x :
  l !! i = Some old →
  sum_Z (f <$> <[i := x]> l) = sum_Z (f <$> l) - f old + f x.
Proof.
  revert i. induction l as [|a l IH]; intros [|i] Hi; simplify_eq/=; [lia|].
  rewrite (IH _ Hi). lia.
Qed.

Lemma sum_Z_alter {A} (f : A → Z) (g : A → A) (l : list A) i old :
  l !! i = Some old →
  sum_Z (f <$> alter g i l) = sum_Z (f <$> l) - f old + f (g old).
Proof.
  revert i. induction l as [|a l IH]; intros [|i] Hi; simplify_eq/=; [lia|].
  rewrite (IH _ Hi). lia.
Qed.

Lemma slack_set_cell dist v s x old :
  cell dist v s = Some old →
  slack (set_cell dist v s x) = slack dist - old + x.
Proof.
  intros (row & Hv & Hs & Hrow & Hd)%cell_Some.
  rewrite !slack_eq. unfold set_cell.
  rewrite (sum_Z_alter _ _ _ _ _ Hrow). unfold row_slack at 3.
  rewrite (sum_Z_insert _ _ _ _ _ Hd). unfold row_slack. lia.
Qed.

(** Every entry of the table is an [int]. *)
Definition table_ints (dist : list (list Z)) : Prop := Forall (Forall in_int) dist.

Lemma sum_Z_nonneg (l : list Z) : Forall (λ z, 0 ≤ z) l → 0 ≤ sum_Z l.
Proof. induction 1; simpl; lia. Qed.

Lemma slack_nonneg dist : table_ints dist → 0 ≤ slack dist.
Proof.
  intros H. rewrite slack_eq. apply sum_Z_nonneg.
  apply Forall_fmap. eapply Forall_impl; [exact H|]. simpl.
  intros row Hrow. apply sum_Z_nonneg. apply Forall_fmap.
  eapply Forall_impl; [exact Hrow|]. simpl. unfold in_int. lia.
Qed.

Lemma cell_in_int dist v s d : table_ints dist → cell dist v s = Some d → in_int d.
Proof.
  intros H (row & _ & _ & Hrow & Hd)%cell_Some.
  eapply Forall_lookup_1 in H; [|exact Hrow].
  eapply Forall_lookup_1 in H; [|exact Hd]. done.
Qed.

Lemma set_cell_ints dist v s x :
  table_ints dist → in_int x → table_ints (set_cell dist v s x).
Proof.
  intros H Hx. unfold set_cell, table_ints.
  apply Forall_alter; [done|]. intros row _ Hrow.
  by apply Forall_insert.
Qed.

(** ** The loop combinator *)

Section LoopFacts.
Context {S R : Type} (body : S → S + R).

Lemma while_fuel_add i j st :
  while_fuel body (i + j) st =
  match while_fuel body i st with
  | inl st' => while_fuel body j st'
  | inr r => inr r
  end.
Proof.
  revert st. induction i as [|i IH]; intros st; simpl; [done|].
  destruct (body st); [apply IH|done].
Qed.

Lemma while_fuel_mono i j st r :
  while_fuel body i st = inr r → (i ≤ j)%nat → while_fuel body j st = inr r.
Proof.
  intros Hi Hij. replace j with (i + (j - i))%nat by lia.
  by rewrite while_fuel_add, Hi.
Qed.

Lemma while_fuel_det i j st r r' :
  while_fuel body i st = inr r → while_fuel body j st = inr r' → r = r'.
Proof.
  intros Hi Hj.
  apply (while_fuel_mono _ (i `max` j)%nat) in Hi; [|lia].
  apply (while_fuel_mono _ (i `max` j)%nat) in Hj; [|lia].
  congruence.
Qed.

Lemma while_fuel_invariant (Inv : S → Prop) i st st' :
  (∀ st1 st2, Inv st1 → body st1 = inl st2 → Inv st2) →
  Inv st → while_fuel body i st = inl st' → Inv st'.
Proof.
  intros Hstep. revert st. induction i as [|i IH]; intros st Hinv; simpl.
  - by intros [= <-].
  - destruct (body st) as [st1|] eqn:Hb; [|done]. eauto.
Qed.

Lemma while_fuel_split i j st st_i st_j :
  (i ≤ j)%nat → while_fuel body i st = inl st_i →
  while_fuel body j st = inl st_j → while_fuel body (j - i) st_i = inl st_j.
Proof.
  intros Hij Hi Hj. replace j with (i + (j - i))%nat in Hj by lia.
  by rewrite while_fuel_add, Hi in Hj.
Qed.

Lemma while_pow2_fuel d st : while_pow2 body d st = while_fuel body (2 ^ d) st.
Proof.
  revert st. induction d as [|d IH]; intros st.
  - simpl. by destruct (body st).
  - replace (2 ^ Datatypes.S d)%nat with (2 ^ d + 2 ^ d)%nat
      by (rewrite Nat.pow_succ_r'; lia).
    rewrite while_fuel_add. simpl. rewrite IH.
    destruct (while_fuel body (2 ^ d) st); [apply IH|done].
Qed.

End LoopFacts.

(** ** Termination of the search loop *)

Section Termination.
Context {PQ : PriorityQueue}.

Lemma pq_push_length x q :
  length (pq_items (pq_push x q)) = Datatypes.S (length (pq_items q)).
Proof. by rewrite pq_items_push. Qed.

Lemma pq_pop_length q x q' :
  pq_pop q = Some (x, q') →
  length (pq_items q) = Datatypes.S (length (pq_items q')).
Proof. intros [Hp _]%pq_pop_top. by rewrite Hp. Qed.

Lemma relax_potential c s e st st' :
  table_ints st.2 → relax c s e st = Some st' →
  table_ints st'.2 ∧ potential st' ≤ potential st.
Proof.
  intros Hints. unfold relax. intros H.
  apply bind_Some in H as (old & Hold & H).
  case_decide as Hlt; simplify_eq/=; [|done]. split.
  - apply set_cell_ints; [done|apply int_add_in_int].
  - unfold potential. simpl.
    rewrite pq_push_length, (slack_set_cell _ _ _ _ _ Hold). lia.
Qed.

Lemma relax_all_potential c s es st st' :
  table_ints st.2 → relax_all c s es st = Some st' →
  table_ints st'.2 ∧ potential st' ≤ potential st.
Proof.
  revert st. induction es as [|e es IH]; intros st Hints H; simplify_eq/=.
  - done.
  - apply bind_Some in H as (st1 & H1 & H).
    destruct (relax_potential _ _ _ _ _ Hints H1) as [Hints1 Hle1].
    destruct (IH _ Hints1 H) as [? ?]. split; [done|lia].
Qed.

Lemma while_step_potential adj dst k st st' :
  table_ints st.2 → while_step adj dst k st = inl st' →
  table_ints st'.2 ∧ potential st' < potential st.
Proof.
  intros Hints. unfold while_step.
  destruct (pq_pop st.1) as [[[[c u] s] q]|] eqn:Hpop; [|done].
  apply pq_pop_length in Hpop.
  case_decide; [done|]. case_decide.
  - intros [= <-]. split; [done|]. unfold potential. simpl. lia.
  - destruct (vec_at adj u) as [es|]; [|done].
    destruct (relax_all c s es (q, st.2)) as [st1|] eqn:Hrel; [|done].
    intros [= <-].
    destruct (relax_all_potential c s es (q, st.2) st1 Hints Hrel) as [? Hle].
    split; [done|]. unfold potential in *. simpl in *. lia.
Qed.

Lemma potential_nonneg st : table_ints st.2 → 0 ≤ potential st.
Proof. intros H%slack_nonneg. unfold potential. lia. Qed.

(** The loop ends within [potential st + 1] iterations. *)
Lemma search_ends adj dst k st i :
  table_ints st.2 → potential st < Z.of_nat i →
  ∃ r, while_fuel (while_step adj dst k) i st = inr r.
Proof.
  revert st. induction i as [|i IH]; intros st Hints Hlt.
  - pose proof (potential_nonneg _ Hints). lia.
  - simpl. destruct (while_step adj dst k st) as [st'|r] eqn:Hstep; [|by eexists].
    destruct (while_step_potential _ _ _ _ _ Hints Hstep) as [Hints' Hlt'].
    apply IH; [done|lia].
Qed.

Lemma depth_enough st : potential st < Z.of_nat (2 ^ depth st).
Proof.
  unfold depth. rewrite Nat2Z.inj_pow.
  rewrite Z2Nat.id by apply Z.log2_up_nonneg.
  destruct (decide (1 < potential st + 1)) as [H|H].
  - pose proof (Z.log2_up_spec _ H). simpl. lia.
  - replace (Z.log2_up (potential st + 1)) with 0; [simpl; lia|].
    symmetry. apply Z.log2_up_eqn0. lia.
Qed.

(** [runs adj dst k st r]: the loop started in [st] ends with [r]. *)
Definition runs (adj : list (list Edge)) (dst k : Z) (st : search_state)
    (r : outcome) : Prop :=
  ∃ i, while_fuel (while_step adj dst k) i st = inr r.

Lemma runs_det adj dst k st r r' :
  runs adj dst k st r → runs adj dst k st r' → r = r'.
Proof. intros [i Hi] [j Hj]. eapply while_fuel_det; eauto. Qed.

Lemma runs_total adj dst k st : table_ints st.2 → ∃ r, runs adj dst k st r.
Proof.
  intros Hints.
  destruct (search_ends adj dst k st (2 ^ depth st) Hints (depth_enough st))
    as [r Hr].
  exists r. by eexists.
Qed.

Lemma runs_step adj dst k st st' r :
  while_step adj dst k st = inl st' → runs adj dst k st' r → runs adj dst k st r.
Proof. intros Hstep [i Hi]. exists (Datatypes.S i). simpl. by rewrite Hstep. Qed.

Lemma runs_stop adj dst k st r :
  while_step adj dst k st = inr r → runs adj dst k st r.
Proof. intros Hstep. exists 1%nat. simpl. by rewrite Hstep. Qed.

Lemma while_pow2_runs adj dst k st r :
  table_ints st.2 → runs adj dst k st r →
  while_pow2 (while_step adj dst k) (depth st) st = inr r.
Proof.
  intros Hints Hr. rewrite while_pow2_fuel.
  destruct (search_ends adj dst k st (2 ^ depth st) Hints (depth_enough st))
    as [r' Hr'].
  rewrite Hr'. f_equal. eapply runs_det; [by eexists|done].
Qed.

End Termination.

(** ** The graph of the flights *)

(** A flight [{u, v, w}] of the list: an edge from [u] to [v] of cost [w]. *)
Definition edge (flights : list (list Z)) (u v w : Z) : Prop :=
  ∃ flight, flight ∈ flights ∧
    vec_at flight 0 = Some u ∧ vec_at flight 1 = Some v ∧ vec_at flight 2 = Some w.

(** [walk flights src v m c]: [m] consecutive flights lead from [src] to
    [v], and their costs add up to [c]. *)
Inductive walk (flights : list (list Z)) (src : Z) : Z → Z → Z → Prop :=
  | walk_start : walk flights src src 0 0
  | walk_step v x w m c :
      walk flights src v m c → edge flights v x w →
      walk flights src x (m + 1) (c + w).

(** Intermediate cities of a route of [m] flights. *)
Definition stops_of (m : Z) : Z := Z.max 0 (m - 1).

(** A flight has its three fields and both cities are in [[0, n)]. *)
Definition valid_flight (n : Z) (flight : list Z) : Prop :=
  match flight with
  | u :: v :: _ :: _ => 0 ≤ u < n ∧ 0 ≤ v < n
  | _ => False
  end.

(** The cost of a flight is not negative. *)
Definition nonneg_flight (flight : list Z) : Prop :=
  match flight with
  | _ :: _ :: w :: _ => 0 ≤ w
  | _ => True
  end.

Record valid_graph (n : Z) (flights : list (list Z)) (src dst : Z) : Prop := {
  valid_n : 1 ≤ n;
  valid_src : 0 ≤ src < n;
  valid_dst : 0 ≤ dst < n;
  valid_flights : Forall (valid_flight n) flights;
}.

Definition nonneg_costs (flights : list (list Z)) : Prop :=
  Forall nonneg_flight flights.

Lemma flight_fields (flight : list Z) u v w :
  vec_at flight 0 = Some u → vec_at flight 1 = Some v → vec_at flight 2 = Some w →
  ∃ rest, flight = u :: v :: w :: rest.
Proof.
  destruct flight as [|a [|b [|c rest]]]; try done.
  intros [= ->] [= ->] [= ->]. by eexists.
Qed.

Lemma edge_cons flights flight u v w :
  edge (flight :: flights) u v w ↔
  (vec_at flight 0 = Some u ∧ vec_at flight 1 = Some v ∧ vec_at flight 2 = Some w)
  ∨ edge flights u v w.
Proof.
  unfold edge. split.
  - intros (f & [->|Hin]%elem_of_cons & H); [by left|right; eauto].
  - intros [H|(f & Hin & H)].
    + exists flight. split; [left|done].
    + exists f. split; [by right|done].
Qed.

Lemma edge_valid n flights u v w :
  Forall (valid_flight n) flights → edge flights u v w → 0 ≤ u < n ∧ 0 ≤ v < n.
Proof.
  intros Hall (f & Hin & H0 & H1 & H2).
  destruct (flight_fields _ _ _ _ H0 H1 H2) as [rest ->].
  rewrite Forall_forall in Hall. apply (Hall _ Hin).
Qed.

Lemma edge_nonneg flights u v w :
  nonneg_costs flights → edge flights u v w → 0 ≤ w.
Proof.
  intros Hall (f & Hin & H0 & H1 & H2).
  destruct (flight_fields _ _ _ _ H0 H1 H2) as [rest ->].
  unfold nonneg_costs in Hall. rewrite Forall_forall in Hall.
  apply (Hall _ Hin).
Qed.

Lemma walk_length_nonneg flights src v m c : walk flights src v m c → 0 ≤ m.
Proof. induction 1; lia. Qed.

Lemma walk_cost_nonneg flights src v m c :
  nonneg_costs flights → walk flights src v m c → 0 ≤ c.
Proof.
  intros Hnn. induction 1 as [|v x w m c _ IH He]; [lia|].
  pose proof (edge_nonneg _ _ _ _ Hnn He). lia.
Qed.

(** ** The adjacency list *)

(** [adj[u]] holds exactly the flights that leave [u]. *)
Definition adj_of (n : Z) (flights : list (list Z)) (adj : list (list Edge)) : Prop :=
  Z.of_nat (length adj) = n ∧
  ∀ u es, vec_at adj u = Some es →
    ∀ e, e ∈ es ↔ edge flights u (to e) (cost e).

Lemma build_adj_from n flights adj0 :
  Z.of_nat (length adj0) = n → Forall (valid_flight n) flights →
  ∃ adj, build_adj flights adj0 = Some adj ∧ Z.of_nat (length adj) = n ∧
    ∀ u es, vec_at adj u = Some es →
      ∃ es0, vec_at adj0 u = Some es0 ∧
        ∀ e, e ∈ es ↔ e ∈ es0 ∨ edge flights u (to e) (cost e).
Proof.
  intros Hlen Hall. revert adj0 Hlen.
  induction Hall as [|flight flights Hf _ IH]; intros adj0 Hlen.
  - exists adj0. repeat split; [done|]. intros u es Hu. exists es.
    split; [done|]. intros e. split; [by left|].
    intros [?|(f & Hin & _)]; [done|]. by apply elem_of_nil in Hin.
  - destruct flight as [|u0 [|v0 [|w0 rest]]]; try done.
    destruct Hf as [Hu0 Hv0].
    destruct (vec_at_is_Some adj0 u0) as [es0 Hes0]; [lia|].
    set (e0 := {| to := v0; cost := w0 |}).
    destruct (IH (<[Z.to_nat u0 := es0 ++ [e0]]> adj0)) as (adj & Hb & Hl & Hadj).
    { by rewrite length_insert. }
    exists adj. split; [|split; [done|]].
    { simpl. unfold add_flight. simpl.
      change (vec_at (u0 :: v0 :: w0 :: rest) 0) with (Some u0).
      change (vec_at (u0 :: v0 :: w0 :: rest) 1) with (Some v0).
      change (vec_at (u0 :: v0 :: w0 :: rest) 2) with (Some w0).
      simpl. rewrite Hes0. simpl. exact Hb. }
    intros u es Hu. destruct (Hadj u es Hu) as (es1 & Hes1 & Hmem).
    apply vec_at_Some in Hes1 as [Hu_nonneg Hes1].
    apply vec_at_Some in Hes0 as Hes0'. destruct Hes0' as [_ Hes0'].
    destruct (decide (u = u0)) as [->|Hne].
    + rewrite list_lookup_insert_eq in Hes1 by (by eapply lookup_lt_Some).
      injection Hes1 as <-. exists es0. split; [done|].
      intros e. rewrite Hmem, elem_of_app, list_elem_of_singleton, edge_cons.
      split.
      * intros [[?| ->]|?]; [by left| |by right; right].
        right; left. done.
      * intros [?|[(H0 & H1 & H2)|?]]; [by left; left| |by right].
        left; right. destruct e as [a b]. simpl in *.
        injection H1 as <-. injection H2 as <-. done.
    + rewrite list_lookup_insert_ne in Hes1 by lia.
      exists es1. split; [by apply vec_at_Some|].
      intros e. rewrite Hmem, edge_cons. split.
      * intros [?|?]; [by left|by right; right].
      * intros [?|[(H0 & _)|?]]; [by left| |by right].
        injection H0 as ->. done.
Qed.

Lemma build_adj_spec n flights adj0 :
  vec_make n [] = Some adj0 → Forall (valid_flight n) flights →
  ∃ adj, build_adj flights adj0 = Some adj ∧ adj_of n flights adj.
Proof.
  intros [Hn ->]%vec_make_Some Hall.
  destruct (build_adj_from n flights (replicate (Z.to_nat n) []))
    as (adj & Hb & Hl & Hadj); [rewrite length_replicate; lia|done|].
  exists adj. split; [done|]. split; [done|].
  intros u es Hu e. destruct (Hadj u es Hu) as (es0 & Hes0 & Hmem).
  rewrite Hmem. apply vec_at_Some in Hes0 as [_ Hes0].
  apply lookup_replicate in Hes0 as [-> _].
  split; [intros [H%elem_of_nil|?]; done|by right].
Qed.

(** ** Bounds safety of the search *)

Section Safety.
Context {PQ : PriorityQueue}.

(** A frontier entry names a city of the graph and a column of the table. *)
Definition tuple_ok (n k : Z) (t : FlightTuple) : Prop :=
  0 ≤ t_city t < n ∧ 0 ≤ t_stops t ≤ k + 1.

(** The table has [n] rows of [k + 2] columns and every entry of the
    frontier is within it. *)
Definition safe_state (n k : Z) (st : search_state) : Prop :=
  table_shape n (k + 2) st.2 ∧ Forall (tuple_ok n k) (pq_items st.1).

(** What one run of the loop over the flights [es] out of a city, entered
    with [current_cost = c] and [current_stops = s], does to the state. *)
Record relaxed (c s : Z) (es : list Edge) (st st' : search_state) : Prop := {
  relaxed_keeps : ∀ t, t ∈ pq_items st.1 → t ∈ pq_items st'.1;
  relaxed_pushed : ∀ t, t ∈ pq_items st'.1 →
    t ∈ pq_items st.1 ∨ ∃ e, e ∈ es ∧ t = (int_add c (cost e), to e, s + 1);
  relaxed_cells : ∀ v j d, cell st.2 v j = Some d →
    ∃ d', cell st'.2 v j = Some d' ∧ d' ≤ d ∧
      (d' = d ∨ (d' < d ∧ j = s + 1 ∧ (d', v, j) ∈ pq_items st'.1));
  relaxed_edges : ∀ e, e ∈ es →
    ∃ d', cell st'.2 (to e) (s + 1) = Some d' ∧ d' ≤ int_add c (cost e);
}.

Lemma relaxed_nil c s st : relaxed c s [] st st.
Proof.
  split; [done|by left| |].
  - intros v j d Hd. exists d. split; [done|]. split; [lia|by left].
  - intros e He. by apply elem_of_nil in He.
Qed.

Lemma relaxed_cons c s e es st st1 st2 :
  relaxed c s [e] st st1 → relaxed c s es st1 st2 → relaxed c s (e :: es) st st2.
Proof.
  intros [K1 P1 C1 E1] [K2 P2 C2 E2]. split.
  - auto.
  - intros t [Ht|(e' & He' & ->)]%P2.
    + apply P1 in Ht as [?|(e' & ->%list_elem_of_singleton & ->)]; [by left|].
      right. exists e. split; [left|done].
    + right. exists e'. split; [by right|done].
  - intros v j d Hd.
    destruct (C1 _ _ _ Hd) as (d1 & Hd1 & Hle1 & Hor1).
    destruct (C2 _ _ _ Hd1) as (d2 & Hd2 & Hle2 & Hor2).
    exists d2. split; [done|]. split; [lia|].
    destruct Hor2 as [->|(? & ? & ?)].
    + destruct Hor1 as [->|(? & ? & ?)]; [by left|]. right. auto.
    + right. repeat split; [lia|done|done].
  - intros e' [->|He']%elem_of_cons.
    + destruct (E1 e) as (d1 & Hd1 & Hle1); [left|].
      destruct (C2 _ _ _ Hd1) as (d2 & Hd2 & Hle2 & _).
      exists d2. split; [done|lia].
    + by apply E2.
Qed.

Lemma relax_relaxed n k c s e st :
  k ≤ INT_MAX - 2 → safe_state n k st → 0 ≤ s ≤ k → 0 ≤ to e < n →
  ∃ st', relax c s e st = Some st' ∧ safe_state n k st' ∧ relaxed c s [e] st st'.
Proof.
  intros Hk [Hshape Hq] Hs He. unfold relax.
  rewrite (int_add_exact s 1) by (unfold in_int, INT_MIN, INT_MAX in *; lia).
  destruct (cell_is_Some n (k + 2) st.2 (to e) (s + 1)) as [old Hold];
    [done|done|lia|].
  rewrite Hold. simpl. set (nc := int_add c (cost e)).
  case_decide as Hlt.
  - eexists. split; [done|]. split; [|split]; simpl.
    + split; simpl; [by apply set_cell_shape|].
      apply (Permutation_Forall (symmetry (pq_items_push _ _))).
      constructor; [|done]. unfold tuple_ok, t_city, t_stops. simpl. lia.
    + intros t Ht. rewrite pq_items_push. by right.
    + intros t Ht. rewrite pq_items_push in Ht.
      apply elem_of_cons in Ht as [->|Ht]; [|by left].
      right. exists e. split; [left|done].
    + intros v j d Hd.
      destruct (decide ((v, j) = (to e, s + 1))) as [[= -> ->]|Hne].
      * exists nc. split; [by eapply cell_set_cell_eq|].
        assert (d = old) as -> by congruence. split; [lia|]. right.
        split; [done|]. split; [done|]. rewrite pq_items_push. left.
      * exists d. split; [|split; [lia|by left]].
        rewrite cell_set_cell_ne; [done|lia|lia|done].
    + intros e' ->%list_elem_of_singleton. exists nc.
      split; [by eapply cell_set_cell_eq|lia].
  - exists st. split; [done|]. split; [done|]. split.
    + done.
    + by left.
    + intros v j d Hd. exists d. split; [done|]. split; [lia|by left].
    + intros e' ->%list_elem_of_singleton. exists old. split; [done|lia].
Qed.

Lemma relax_all_relaxed n k c s es st :
  k ≤ INT_MAX - 2 → safe_state n k st → 0 ≤ s ≤ k →
  Forall (λ e, 0 ≤ to e < n) es →
  ∃ st', relax_all c s es st = Some st' ∧ safe_state n k st' ∧
    relaxed c s es st st'.
Proof.
  intros Hk Hsafe Hs Hes. revert st Hsafe.
  induction Hes as [|e es He _ IH]; intros st Hsafe.
  - exists st. split; [done|]. split; [done|apply relaxed_nil].
  - destruct (relax_relaxed n k c s e st) as (st1 & H1 & Hsafe1 & R1); [done..|].
    destruct (IH st1 Hsafe1) as (st2 & H2 & Hsafe2 & R2).
    exists st2. split; [simpl; by rewrite H1|].
    split; [done|]. by eapply relaxed_cons.
Qed.

Lemma adj_of_targets n flights adj u es :
  Forall (valid_flight n) flights → adj_of n flights adj →
  vec_at adj u = Some es → Forall (λ e, 0 ≤ to e < n) es.
Proof.
  intros Hall [_ Hadj] Hu. apply Forall_forall. intros e He.
  apply (Hadj _ _ Hu) in He. by destruct (edge_valid _ _ _ _ _ Hall He).
Qed.

(** What one iteration of the loop does. *)
Inductive step_case (adj : list (list Edge)) (dst k : Z)
    (st : search_state) : search_state + outcome → Prop :=
  | step_empty :
      pq_items st.1 = [] → step_case adj dst k st (inr (Ret (-1)))
  | step_found c s q :
      pq_pop st.1 = Some ((c, dst, s), q) →
      step_case adj dst k st (inr (Ret c))
  | step_skip c u s q :
      pq_pop st.1 = Some ((c, u, s), q) → u ≠ dst → k < s →
      step_case adj dst k st (inl (q, st.2))
  | step_expand c u s q es st' :
      pq_pop st.1 = Some ((c, u, s), q) → u ≠ dst → s ≤ k →
      vec_at adj u = Some es → relaxed c s es (q, st.2) st' →
      step_case adj dst k st (inl st').

Lemma pq_pop_elem_of q t q' :
  pq_pop q = Some (t, q') → t ∈ pq_items q ∧ ∀ t', t' ∈ pq_items q' → t' ∈ pq_items q.
Proof.
  intros [Hp _]%pq_pop_top. split.
  - rewrite Hp. left.
  - intros t' Ht'. rewrite Hp. by right.
Qed.

Lemma pq_pop_None q : pq_pop q = None → pq_items q = [].
Proof.
  intros Hpop. destruct (pq_items q) as [|t l] eqn:E; [done|].
  destruct (pq_pop_nonempty q) as [? ?]; [by rewrite E|congruence].
Qed.

Lemma while_step_safe n flights adj dst k st :
  k ≤ INT_MAX - 2 → Forall (valid_flight n) flights → adj_of n flights adj →
  safe_state n k st →
  step_case adj dst k st (while_step adj dst k st) ∧
  ∀ st', while_step adj dst k st = inl st' → safe_state n k st'.
Proof.
  intros Hk Hall Hadj Hsafe. unfold while_step.
  destruct (pq_pop st.1) as [[[[c u] s] q]|] eqn:Hpop.
  2:{ split; [|done]. constructor. by apply pq_pop_None. }
  destruct (pq_pop_elem_of _ _ _ Hpop) as [Hin Hsub].
  destruct Hsafe as [Hshape Hq].
  assert (tuple_ok n k (c, u, s)) as [Hu Hs].
  { rewrite Forall_forall in Hq. by apply Hq. }
  unfold t_city, t_stops in Hu, Hs. simpl in Hu, Hs.
  assert (safe_state n k (q, st.2)) as Hsafe'.
  { split; [done|]. simpl. apply Forall_forall. intros t Ht.
    rewrite Forall_forall in Hq. auto. }
  case_decide as Hdst; [subst u; split; [by econstructor|done]|].
  case_decide as Hgt.
  { split; [econstructor; [done..|lia]|]. by intros ? [= <-]. }
  destruct (vec_at_is_Some adj u) as [es Hes]; [destruct Hadj; lia|].
  rewrite Hes.
  destruct (relax_all_relaxed n k c s es (q, st.2)) as (st' & Hrel & ? & ?);
    [done|done|lia|by eapply adj_of_targets|].
  rewrite Hrel. split; [econstructor; [done..|lia|done|done]|].
  by intros ? [= <-].
Qed.

End Safety.

(** ** The initial state *)

Section Initial.
Context {PQ : PriorityQueue}.

Lemma pq_items_seed t : pq_items (pq_push t pq_new) = [t].
Proof.
  apply Permutation_singleton_r.
  by rewrite pq_items_push, pq_items_new.
Qed.

Lemma replicate_table_shape n cols x :
  0 ≤ n → 0 ≤ cols →
  table_shape n cols (replicate (Z.to_nat n) (replicate (Z.to_nat cols) x)).
Proof.
  intros Hn Hc. split; [rewrite length_replicate; lia|].
  apply Forall_replicate. rewrite length_replicate. lia.
Qed.

Lemma sum_Z_replicate (m : nat) (x : Z) : sum_Z (replicate m x) = Z.of_nat m * x.
Proof. induction m as [|m IH]; simpl in *; [done|]. rewrite IH. lia. Qed.

Lemma slack_replicate (n cols : nat) (x : Z) :
  slack (replicate n (replicate cols x)) =
  Z.of_nat n * (Z.of_nat cols * (x - INT_MIN)).
Proof. unfold slack. by rewrite !fmap_replicate, !sum_Z_replicate. Qed.

Lemma cell_replicate n cols x v j d :
  cell (replicate n (replicate cols x)) v j = Some d → d = x.
Proof.
  intros (row & _ & _ & Hrow & Hd)%cell_Some.
  apply lookup_replicate in Hrow as [-> _].
  by apply lookup_replicate in Hd as [-> _].
Qed.

Lemma init_search_spec n flights src dst k :
  valid_graph n flights src dst → -1 ≤ k ≤ INT_MAX - 2 →
  ∃ adj st, init_search n flights src k = Some (adj, st) ∧
    adj_of n flights adj ∧ safe_state n k st ∧ table_ints st.2 ∧
    pq_items st.1 = [(0, src, 0)] ∧ cell st.2 src 0 = Some 0 ∧
    (∀ v j d, cell st.2 v j = Some d → d = INT_MAX ∨ (v, j, d) = (src, 0, 0)) ∧
    slack st.2 ≤ n * (k + 2) * 4294967295.
Proof.
  intros [Hn Hsrc Hdst Hall] Hk. unfold init_search.
  destruct (vec_make n (@nil Edge)) as [adj0|] eqn:Hadj0.
  2:{ unfold vec_make in Hadj0. case_decide; [done|lia]. }
  destruct (build_adj_spec n flights adj0 Hadj0 Hall) as (adj & Hb & Hadj).
  simpl. rewrite Hb. simpl.
  rewrite (int_add_exact k 2) by (unfold in_int, INT_MIN, INT_MAX in *; lia).
  unfold vec_make. rewrite decide_True by lia. simpl.
  rewrite decide_True by lia. simpl.
  set (dist0 := replicate (Z.to_nat n) (replicate (Z.to_nat (k + 2)) INT_MAX)).
  assert (table_shape n (k + 2) dist0) as Hshape
    by (apply replicate_table_shape; lia).
  destruct (cell_is_Some n (k + 2) dist0 src 0) as [d0 Hd0]; [done|lia|lia|].
  rewrite Hd0. simpl. eexists _, _. split; [done|]. simpl.
  split; [done|]. split; [|split; [|split; [|split; [|split]]]].
  - split; simpl; [by apply set_cell_shape|]. rewrite pq_items_seed.
    constructor; [|done]. unfold tuple_ok, t_city, t_stops. simpl. lia.
  - apply set_cell_ints; [|unfold in_int, INT_MIN, INT_MAX; lia].
    apply Forall_replicate, Forall_replicate.
    unfold in_int, INT_MIN, INT_MAX. lia.
  - apply pq_items_seed.
  - by eapply cell_set_cell_eq.
  - intros v j d Hd.
    destruct (decide ((v, j) = (src, 0))) as [[= -> ->]|Hne].
    + right. erewrite cell_set_cell_eq in Hd by done. by injection Hd as <-.
    + left. rewrite cell_set_cell_ne in Hd; [|lia|lia|done].
      by apply cell_replicate in Hd.
  - rewrite (slack_set_cell _ _ _ _ _ Hd0).
    apply cell_replicate in Hd0 as ->. unfold dist0.
    rewrite slack_replicate. unfold INT_MAX, INT_MIN. nia.
Qed.

Lemma findCheapestPrice_runs n flights src dst k adj st r :
  init_search n flights src k = Some (adj, st) → table_ints st.2 →
  runs adj dst k st r → findCheapestPrice n flights src dst k = r.
Proof.
  intros Hinit Hints Hr. unfold findCheapestPrice. rewrite Hinit.
  by rewrite (while_pow2_runs _ _ _ _ _ Hints Hr).
Qed.

(** From a safe state the loop never faults. *)
Lemma while_fuel_safe n flights adj dst k i st r :
  k ≤ INT_MAX - 2 → Forall (valid_flight n) flights → adj_of n flights adj →
  safe_state n k st →
  while_fuel (while_step adj dst k) i st = inr r → r ≠ Fault.
Proof.
  intros Hk Hall Hadj. revert st.
  induction i as [|i IH]; intros st Hsafe; simpl; [done|].
  destruct (while_step_safe n flights adj dst k st Hk Hall Hadj Hsafe)
    as [Hcase Hnext].
  destruct (while_step adj dst k st) as [st'|r'] eqn:Hstep.
  - apply IH. by apply Hnext.
  - intros [= <-]. by inversion Hcase.
Qed.

End Initial.

(** ** Functional correctness of the search *)

(** No route of at most [k + 1] flights out of [src] costs more than
    [INT_MAX]: the sums the search forms stay within [int]. *)
Definition costs_fit (flights : list (list Z)) (src k : Z) : Prop :=
  ∀ v m c, walk flights src v m c → m ≤ k + 1 → c ≤ INT_MAX.

(** No such route costs [INT_MAX] either, the value that marks an empty
    table entry. *)
Definition bounded_costs (flights : list (list Z)) (src k : Z) : Prop :=
  ∀ v m c, walk flights src v m c → m ≤ k + 1 → c < INT_MAX.

Lemma bounded_costs_fit flights src k :
  bounded_costs flights src k → costs_fit flights src k.
Proof. intros Hb v m c Hw Hm. pose proof (Hb _ _ _ Hw Hm). lia. Qed.

(** [c] is the cost of a route from [src] to [dst] with at most [k]
    intermediate cities. *)
Definition route (flights : list (list Z)) (src dst k c : Z) : Prop :=
  ∃ m, walk flights src dst m c ∧ stops_of m ≤ k.

(** [c] is the least cost of such a route. *)
Definition cheapest (flights : list (list Z)) (src dst k c : Z) : Prop :=
  route flights src dst k c ∧ ∀ c', route flights src dst k c' → c ≤ c'.

Section Correctness.
Context {PQ : PriorityQueue}.

(** The invariant of the loop: frontier entries are routes, and every
    table entry that has been lowered is either still in the frontier or
    has been expanded along every flight out of its city. *)
Record good_state (flights : list (list Z)) (src dst k : Z)
    (st : search_state) : Prop := {
  good_items : ∀ c v s, (c, v, s) ∈ pq_items st.1 → walk flights src v s c;
  good_seed : cell st.2 src 0 = Some 0;
  good_cells : ∀ v s d, cell st.2 v s = Some d → d < INT_MAX →
    (d, v, s) ∈ pq_items st.1 ∨
    (v ≠ dst ∧ (k < s ∨ ∀ x w, edge flights v x w →
       ∃ d', cell st.2 x (s + 1) = Some d' ∧ d' ≤ d + w));
}.

Lemma new_cost_exact flights src k u s c x w :
  nonneg_costs flights → costs_fit flights src k →
  walk flights src u s c → s ≤ k → edge flights u x w →
  int_add c w = c + w ∧ walk flights src x (s + 1) (c + w).
Proof.
  intros Hnn Hfit Hw Hs He.
  assert (walk flights src x (s + 1) (c + w)) as Hw' by by econstructor.
  split; [|done]. apply int_add_exact.
  pose proof (walk_cost_nonneg _ _ _ _ _ Hnn Hw').
  pose proof (Hfit _ _ _ Hw' ltac:(lia)).
  unfold in_int, INT_MIN. lia.
Qed.

Lemma while_step_good n flights adj src dst k st st' :
  k ≤ INT_MAX - 2 → Forall (valid_flight n) flights → adj_of n flights adj →
  nonneg_costs flights → costs_fit flights src k →
  safe_state n k st → good_state flights src dst k st →
  while_step adj dst k st = inl st' → good_state flights src dst k st'.
Proof.
  intros Hk Hall Hadj Hnn Hfit Hsafe [Gi Gs Gc] Hstep.
  destruct (while_step_safe n flights adj dst k st Hk Hall Hadj Hsafe)
    as [Hcase Hnext].
  specialize (Hnext _ Hstep). rewrite Hstep in Hcase.
  inversion Hcase as [| |c u s q Hpop Hu Hs|c u s q es st1 Hpop Hu Hs Hes Hrel];
    subst.
  - (* the entry is past the stop limit *)
    destruct (pq_pop_top _ _ _ Hpop) as [Hp _].
    destruct (pq_pop_elem_of _ _ _ Hpop) as [Hin Hsub].
    split; simpl; [auto|done|].
    intros v j d Hd Hlt. destruct (Gc _ _ _ Hd Hlt) as [Hq|?]; [|by right].
    rewrite Hp in Hq. apply elem_of_cons in Hq as [[= -> -> ->]|?]; [|by left].
    right. split; [done|by left].
  - (* the entry is expanded *)
    destruct (pq_pop_top _ _ _ Hpop) as [Hp _].
    destruct (pq_pop_elem_of _ _ _ Hpop) as [Hin Hsub].
    pose proof (Gi _ _ _ Hin) as Hwalk.
    pose proof (walk_length_nonneg _ _ _ _ _ Hwalk) as Hs0.
    destruct Hrel as [K P C E]. simpl in *.
    assert (∀ e, e ∈ es →
      int_add c (cost e) = c + cost e ∧
      walk flights src (to e) (s + 1) (c + cost e)) as Hexact.
    { intros e He. apply (proj2 Hadj _ _ Hes) in He.
      by eapply new_cost_exact. }
    split.
    + intros c' v' s' [Hq|(e & He & [= -> -> ->])]%P; [auto|].
      destruct (Hexact _ He) as [-> ?]. done.
    + destruct (C _ _ _ Gs) as (d' & Hd' & Hle & [->|(_ & ? & _)]); [done|lia].
    + intros v j d' Hd' Hlt.
      destruct Hnext as [Hshape' _]. destruct Hsafe as [Hshape _].
      destruct (cell_bound _ _ _ _ _ _ Hshape' Hd') as [Hv Hj].
      destruct (cell_is_Some _ _ _ v j Hshape Hv Hj) as [d Hd].
      destruct (C _ _ _ Hd) as (d2 & Hd2 & Hle & Hor).
      assert (d2 = d') as -> by congruence.
      destruct Hor as [->|(_ & _ & ?)]; [|by left].
      destruct (Gc _ _ _ Hd Hlt) as [Hq|[Hv' Hex]].
      * rewrite Hp in Hq.
        apply elem_of_cons in Hq as [[= -> -> ->]|?]; [|left; auto].
        right. split; [done|]. right. intros x w He.
        destruct (E {| to := x; cost := w |}) as (d1 & Hd1 & Hle1).
        { by apply (proj2 Hadj _ _ Hes). }
        simpl in *. exists d1. split; [done|].
        destruct (new_cost_exact _ _ _ _ _ _ _ _ Hnn Hfit Hwalk Hs He)
          as [Heq _].
        lia.
      * right. split; [done|]. destruct Hex as [?|Hex]; [by left|right].
        intros x w He. destruct (Hex _ _ He) as (d1 & Hd1 & Hle1).
        destruct (C _ _ _ Hd1) as (d3 & Hd3 & Hle3 & _).
        exists d3. split; [done|lia].
Qed.

(** Every route to [dst] within the limit that costs less than [INT_MAX]
    is covered by a frontier entry that costs no more. *)
Lemma frontier_covers flights src dst k st m c :
  nonneg_costs flights → good_state flights src dst k st →
  walk flights src dst m c → m ≤ k + 1 → c < INT_MAX →
  ∃ t, t ∈ pq_items st.1 ∧ t_cost t ≤ c.
Proof.
  intros Hnn [Gi Gs Gc] Hw Hm Hc.
  assert (∀ v m c, walk flights src v m c → m ≤ k + 1 → c < INT_MAX →
    (∃ t, t ∈ pq_items st.1 ∧ t_cost t ≤ c) ∨
    (∃ d, cell st.2 v m = Some d ∧ d ≤ c)) as Hprefix.
  { clear m c Hw Hm Hc. intros v m c Hw.
    induction Hw as [|v x w m c Hw IH He]; intros Hm Hc.
    - right. by exists 0.
    - pose proof (edge_nonneg _ _ _ _ Hnn He) as Hw0.
      pose proof (walk_length_nonneg _ _ _ _ _ Hw) as Hm0.
      destruct IH as [(t & Ht & Hle)|(d & Hd & Hle)]; [lia|lia| |].
      + left. exists t. split; [done|lia].
      + destruct (Gc _ _ _ Hd ltac:(lia)) as [Hq|[_ [?|Hex]]]; [|lia|].
        * left. exists (d, v, m). split; [done|]. unfold t_cost. simpl. lia.
        * right. destruct (Hex _ _ He) as (d' & Hd' & Hle').
          exists d'. split; [done|lia]. }
  destruct (Hprefix _ _ _ Hw Hm Hc) as [?|(d & Hd & Hle)]; [done|].
  destruct (Gc _ _ _ Hd ltac:(lia)) as [Hq|[? _]]; [|done].
  exists (d, dst, m). split; [done|]. unfold t_cost. simpl. lia.
Qed.

(** Every frontier entry costs less than [INT_MAX]: it was pushed below a
    table entry. *)
Definition below_items (st : search_state) : Prop :=
  ∀ t, t ∈ pq_items st.1 → t_cost t < INT_MAX.

Lemma relax_below c s e st st' :
  table_ints st.2 → below_items st → relax c s e st = Some st' →
  below_items st'.
Proof.
  intros Hints Hbelow. unfold relax. intros H.
  apply bind_Some in H as (old & Hold & H).
  case_decide as Hlt; simplify_eq/=; [|done].
  intros t Ht. simpl in Ht. rewrite pq_items_push in Ht.
  apply elem_of_cons in Ht as [->|Ht]; [|by apply Hbelow].
  pose proof (cell_in_int _ _ _ _ Hints Hold) as [_ ?].
  unfold t_cost. simpl. lia.
Qed.

Lemma relax_all_below c s es st st' :
  table_ints st.2 → below_items st → relax_all c s es st = Some st' →
  below_items st'.
Proof.
  revert st. induction es as [|e es IH]; intros st Hints Hbelow H;
    simplify_eq/=; [done|].
  apply bind_Some in H as (st1 & H1 & H).
  destruct (relax_potential _ _ _ _ _ Hints H1) as [Hints1 _].
  apply (IH st1); [done| |done].
  exact (relax_below _ _ _ _ _ Hints Hbelow H1).
Qed.

Lemma while_step_below adj dst k st st' :
  table_ints st.2 → below_items st → while_step adj dst k st = inl st' →
  below_items st'.
Proof.
  intros Hints Hbelow. unfold while_step.
  destruct (pq_pop st.1) as [[[[c u] s] q]|] eqn:Hpop; [|done].
  destruct (pq_pop_elem_of _ _ _ Hpop) as [_ Hsub].
  assert (below_items (q, st.2)) as Hq by (intros t Ht; apply Hbelow; auto).
  case_decide; [done|]. case_decide.
  - by intros [= <-].
  - destruct (vec_at adj u) as [es|]; [|done].
    destruct (relax_all c s es (q, st.2)) as [st1|] eqn:Hrel; [|done].
    intros [= <-]. by apply (relax_all_below c s es (q, st.2) st1).
Qed.

(** The result of the search, in terms of the routes of at most [k + 1]
    flights: [-1] when none costs less than [INT_MAX], and the least cost
    otherwise. *)
Definition search_result (flights : list (list Z)) (src dst k : Z)
    (r : outcome) : Prop :=
  (r = Ret (-1) ∧
     ∀ m c, walk flights src dst m c → m ≤ k + 1 → INT_MAX ≤ c) ∨
  (∃ c, r = Ret c ∧ c < INT_MAX ∧
     (∃ m, walk flights src dst m c ∧ m ≤ k + 1) ∧
     ∀ m c', walk flights src dst m c' → m ≤ k + 1 → c ≤ c').

Lemma while_fuel_good n flights adj src dst k i st r :
  k ≤ INT_MAX - 2 → Forall (valid_flight n) flights → adj_of n flights adj →
  nonneg_costs flights → costs_fit flights src k →
  safe_state n k st → table_ints st.2 → below_items st →
  good_state flights src dst k st →
  while_fuel (while_step adj dst k) i st = inr r →
  search_result flights src dst k r.
Proof.
  intros Hk Hall Hadj Hnn Hfit. revert st.
  induction i as [|i IH]; intros st Hsafe Hints Hbelow Hgood; simpl; [done|].
  destruct (while_step_safe n flights adj dst k st Hk Hall Hadj Hsafe)
    as [Hcase Hnext].
  destruct (while_step adj dst k st) as [st'|r'] eqn:Hstep.
  { apply IH; [by apply Hnext| | |by eapply while_step_good].
    - by destruct (while_step_potential _ _ _ _ _ Hints Hstep).
    - by eapply while_step_below. }
  intros [= <-]. inversion Hcase as [Hempty|c s q Hpop| |]; subst.
  - left. split; [done|]. intros m c Hw Hm.
    destruct (decide (c < INT_MAX)) as [Hc|Hc]; [|lia].
    destruct (frontier_covers _ _ _ _ _ _ _ Hnn Hgood Hw Hm Hc) as (t & Ht & _).
    rewrite Hempty in Ht. by apply elem_of_nil in Ht.
  - right. exists c.
    destruct (pq_pop_top _ _ _ Hpop) as [Hp Htop].
    destruct (pq_pop_elem_of _ _ _ Hpop) as [Hin _].
    pose proof (Hbelow _ Hin) as Hc. unfold t_cost in Hc. simpl in Hc.
    split; [done|]. split; [done|]. split.
    + exists s. split; [by apply (good_items _ _ _ _ _ Hgood)|].
      destruct Hsafe as [_ Hq]. rewrite Forall_forall in Hq.
      destruct (Hq _ Hin) as [_ Hs]. unfold t_stops in Hs. simpl in Hs. lia.
    + intros m c' Hw Hm.
      destruct (decide (c' < INT_MAX)) as [Hc'|Hc']; [|lia].
      destruct (frontier_covers _ _ _ _ _ _ _ Hnn Hgood Hw Hm Hc')
        as (t & Ht & Hle).
      rewrite Hp in Ht. apply elem_of_cons in Ht as [->|Ht].
      * unfold t_cost in Hle. simpl in Hle. lia.
      * rewrite Forall_forall in Htop. specialize (Htop _ Ht).
        unfold CompareFlight in Htop. apply bool_decide_eq_false in Htop.
        unfold t_cost in *. simpl in *. lia.
Qed.

End Correctness.

(** ** The search as a whole *)

Section Whole.
Context {PQ : PriorityQueue}.

Lemma init_good flights src dst k st :
  pq_items st.1 = [(0, src, 0)] → cell st.2 src 0 = Some 0 →
  (∀ v j d, cell st.2 v j = Some d → d = INT_MAX ∨ (v, j, d) = (src, 0, 0)) →
  good_state flights src dst k st.
Proof.
  intros Hq Hseed Hcells. split; [|done|].
  - intros c v s Hin. rewrite Hq in Hin.
    apply list_elem_of_singleton in Hin as [= -> -> ->]. constructor.
  - intros v s d Hd Hlt. left.
    destruct (Hcells _ _ _ Hd) as [->|[= -> -> ->]]; [lia|].
    rewrite Hq. left.
Qed.

(** When the costs are non-negative and fit [int], the search returns,
    and what it returns is the least cost of a route of at most [k + 1]
    flights, or [-1] when there is none below [INT_MAX]. *)
Lemma search_correct n flights src dst k :
  valid_graph n flights src dst → -1 ≤ k ≤ INT_MAX - 2 →
  nonneg_costs flights → costs_fit flights src k →
  search_result flights src dst k (findCheapestPrice n flights src dst k).
Proof.
  intros Hvalid Hk Hnn Hfit.
  destruct (init_search_spec n flights src dst k Hvalid Hk)
    as (adj & st & Hinit & Hadj & Hsafe & Hints & Hq & Hseed & Hcells & _).
  destruct (runs_total adj dst k st Hints) as [r Hr].
  rewrite (findCheapestPrice_runs _ _ _ _ _ _ _ _ Hinit Hints Hr).
  destruct Hr as [i Hi].
  apply (while_fuel_good n flights adj src dst k i st r);
    [lia|apply Hvalid|done..| | |done].
  - intros t Ht. rewrite Hq in Ht. apply list_elem_of_singleton in Ht as ->.
    unfold t_cost, INT_MAX. simpl. lia.
  - by apply init_good.
Qed.

(** Without any assumption on the costs, the search returns some [int]. *)
Lemma search_returns n flights src dst k :
  valid_graph n flights src dst → -1 ≤ k ≤ INT_MAX - 2 →
  ∃ v, findCheapestPrice n flights src dst k = Ret v.
Proof.
  intros Hvalid Hk.
  destruct (init_search_spec n flights src dst k Hvalid Hk)
    as (adj & st & Hinit & Hadj & Hsafe & Hints & _).
  destruct (runs_total adj dst k st Hints) as [r Hr].
  rewrite (findCheapestPrice_runs _ _ _ _ _ _ _ _ Hinit Hints Hr).
  destruct Hr as [i Hi].
  pose proof (while_fuel_safe n flights adj dst k i st r ltac:(lia)
    (valid_flights _ _ _ _ Hvalid) Hadj Hsafe Hi).
  destruct r as [v|]; [by exists v|done].
Qed.

(** When [k + 2] does not fit an [int] the table cannot be built. *)
Lemma init_search_faults n flights src k :
  INT_MAX - 2 < k ≤ INT_MAX → init_search n flights src k = None.
Proof.
  intros Hk. unfold init_search.
  destruct (vec_make n []) as [adj0|]; simpl; [|done].
  destruct (build_adj flights adj0) as [adj|]; simpl; [|done].
  assert (vec_make (int_add k 2) INT_MAX = None) as ->; [|done].
  unfold vec_make. apply decide_False.
  unfold int_add, wrap, INT_MIN, INT_MAX in *.
  replace (k + 2 - -2147483648) with ((k + 2 - 2147483648) + 1 * 4294967296)
    by lia.
  rewrite Z.mod_add by lia. rewrite Z.mod_small by lia. lia.
Qed.

Lemma search_faults n flights src dst k :
  INT_MAX - 2 < k ≤ INT_MAX → findCheapestPrice n flights src dst k = Fault.
Proof.
  intros Hk. unfold findCheapestPrice. by rewrite init_search_faults.
Qed.

(** The facts of [init_search_spec], for the state of a search that has
    started. *)
Lemma init_search_started n flights src dst k adj st :
  valid_graph n flights src dst → -1 ≤ k ≤ INT_MAX →
  init_search n flights src k = Some (adj, st) →
  k ≤ INT_MAX - 2 ∧ adj_of n flights adj ∧ safe_state n k st ∧
  table_ints st.2 ∧ pq_items st.1 = [(0, src, 0)] ∧
  slack st.2 ≤ n * (k + 2) * 4294967295.
Proof.
  intros Hvalid Hk Hinit.
  destruct (decide (k ≤ INT_MAX - 2)) as [Hk2|Hk2].
  - destruct (init_search_spec n flights src dst k Hvalid ltac:(lia))
      as (adj' & st' & Hinit' & ? & ? & ? & ? & _ & _ & ?).
    rewrite Hinit in Hinit'. injection Hinit' as <- <-. done.
  - rewrite init_search_faults in Hinit by lia. done.
Qed.

Lemma pq_pop_single q t :
  pq_items q = [t] → ∃ q', pq_pop q = Some (t, q') ∧ pq_items q' = [].
Proof.
  intros Hq. destruct (pq_pop_nonempty q) as [[t' q'] Hpop]; [by rewrite Hq|].
  destruct (pq_pop_top _ _ _ Hpop) as [Hp _]. rewrite Hq in Hp.
  apply Permutation_singleton_l in Hp. injection Hp as <- Hq'.
  exists q'. by split.
Qed.

End Whole.

(** The result does not depend on the implementation of the queue. *)
Lemma search_result_unique flights src dst k r r' :
  search_result flights src dst k r → search_result flights src dst k r' →
  r = r'.
Proof.
  intros [[-> Hno]|(c & -> & Hc & (m & Hw & Hm) & Hmin)]
         [[-> Hno']|(c' & -> & Hc' & (m' & Hw' & Hm') & Hmin')].
  - done.
  - pose proof (Hno _ _ Hw' Hm'). lia.
  - pose proof (Hno' _ _ Hw Hm). lia.
  - f_equal. pose proof (Hmin _ _ Hw' Hm'). pose proof (Hmin' _ _ Hw Hm). lia.
Qed.

Lemma queue_independent (PQ1 PQ2 : PriorityQueue) n flights src dst k :
  valid_graph n flights src dst → -1 ≤ k ≤ INT_MAX - 2 →
  nonneg_costs flights → costs_fit flights src k →
  findCheapestPrice (PQ := PQ1) n flights src dst k =
  findCheapestPrice (PQ := PQ2) n flights src dst k.
Proof.
  intros Hvalid Hk Hnn Hfit.
  eapply search_result_unique; by apply search_correct.
Qed.

(** ** Routes and stops *)

Lemma route_flights flights src dst k c :
  0 ≤ k → route flights src dst k c ↔ ∃ m, walk flights src dst m c ∧ m ≤ k + 1.
Proof.
  intros Hk. unfold route, stops_of.
  split; intros (m & Hw & Hm); exists m; (split; [done|lia]).
Qed.

Lemma search_result_cheapest flights src dst k r :
  0 ≤ k → nonneg_costs flights → search_result flights src dst k r →
  (r = Ret (-1) ∧ ∀ c, route flights src dst k c → INT_MAX ≤ c) ∨
  (∃ c, r = Ret c ∧ 0 ≤ c < INT_MAX ∧ cheapest flights src dst k c).
Proof.
  intros Hk Hnn [[-> Hno]|(c & -> & Hc & (m & Hw & Hm) & Hmin)].
  - left. split; [done|]. intros c (m & Hw & Hm)%route_flights; [|done].
    by apply (Hno _ _ Hw).
  - right. exists c. split; [done|].
    split; [split; [by eapply walk_cost_nonneg|done]|].
    split; [apply route_flights; eauto|].
    intros c' (m' & Hw' & Hm')%route_flights; eauto.
Qed.

(** A bound on the costs that is easy to check: [k + 1] flights of cost at
    most [C] stay below [INT_MAX]. *)
Definition cost_at_most (C : Z) (flight : list Z) : Prop :=
  match flight with
  | _ :: _ :: w :: _ => w ≤ C
  | _ => True
  end.

Lemma bounded_costs_by_max flights src k C :
  0 ≤ C → Forall (cost_at_most C) flights → (k + 1) * C < INT_MAX →
  bounded_costs flights src k.
Proof.
  intros HC Hall Hlt v m c Hw Hm.
  assert (0 ≤ m ∧ c ≤ m * C) as [Hm0 Hc].
  { clear Hm. induction Hw as [|v x w m c Hw [IH1 IH2] He]; [lia|].
    destruct He as (f & Hin & H0 & H1 & H2).
    destruct (flight_fields _ _ _ _ H0 H1 H2) as [rest ->].
    rewrite Forall_forall in Hall. specialize (Hall _ Hin). simpl in Hall.
    lia. }
  nia.
Qed.

(** ** Facts that hold all along a run *)

Section Along.
Context {PQ : PriorityQueue}.

(** [reached adj dst k st0 i st]: after [i] iterations from [st0] the loop
    is still running and is in state [st]. *)
Definition reached (adj : list (list Edge)) (dst k : Z) (st0 : search_state)
    (i : nat) (st : search_state) : Prop :=
  while_fuel (while_step adj dst k) i st0 = inl st.

Lemma reached_safe n flights adj dst k st0 i st :
  k ≤ INT_MAX - 2 → Forall (valid_flight n) flights → adj_of n flights adj →
  safe_state n k st0 → reached adj dst k st0 i st → safe_state n k st.
Proof.
  intros Hk Hall Hadj Hsafe Hi.
  eapply (while_fuel_invariant _ (safe_state n k)); [|done..].
  intros st1 st2 H1 H12.
  by apply (while_step_safe n flights adj dst k st1 Hk Hall Hadj H1).
Qed.

(** Every frontier entry is a route with its exact cost. *)
Definition walk_items (flights : list (list Z)) (src : Z) (st : search_state)
  : Prop :=
  ∀ c v s, (c, v, s) ∈ pq_items st.1 → walk flights src v s c.

Lemma while_step_walk_items n flights adj src dst k st st' :
  k ≤ INT_MAX - 2 → Forall (valid_flight n) flights → adj_of n flights adj →
  nonneg_costs flights → costs_fit flights src k →
  safe_state n k st → walk_items flights src st →
  while_step adj dst k st = inl st' → walk_items flights src st'.
Proof.
  intros Hk Hall Hadj Hnn Hfit Hsafe Hwi Hstep.
  destruct (while_step_safe n flights adj dst k st Hk Hall Hadj Hsafe)
    as [Hcase _].
  rewrite Hstep in Hcase.
  inversion Hcase as [| |c u s q Hpop Hu Hs|c u s q es st1 Hpop Hu Hs Hes Hrel];
    subst; destruct (pq_pop_elem_of _ _ _ Hpop) as [Hin Hsub].
  - intros c' v' s' Hq. apply Hwi. by apply Hsub.
  - intros c' v' s' [Hq|(e & He & [= -> -> ->])]%(relaxed_pushed _ _ _ _ _ Hrel).
    + apply Hwi. by apply Hsub.
    + apply (proj2 Hadj _ _ Hes) in He.
      by destruct (new_cost_exact _ _ _ _ _ _ _ _ Hnn Hfit (Hwi _ _ _ Hin) Hs He)
        as [-> ?].
Qed.

(** Every frontier entry is the end of some route of that many flights. *)
Definition reach_items (flights : list (list Z)) (src : Z) (st : search_state)
  : Prop :=
  ∀ c v s, (c, v, s) ∈ pq_items st.1 → ∃ c', walk flights src v s c'.

Lemma while_step_reach_items n flights adj src dst k st st' :
  k ≤ INT_MAX - 2 → Forall (valid_flight n) flights → adj_of n flights adj →
  safe_state n k st → reach_items flights src st →
  while_step adj dst k st = inl st' → reach_items flights src st'.
Proof.
  intros Hk Hall Hadj Hsafe Hri Hstep.
  destruct (while_step_safe n flights adj dst k st Hk Hall Hadj Hsafe)
    as [Hcase _].
  rewrite Hstep in Hcase.
  inversion Hcase as [| |c u s q Hpop Hu Hs|c u s q es st1 Hpop Hu Hs Hes Hrel];
    subst; destruct (pq_pop_elem_of _ _ _ Hpop) as [Hin Hsub].
  - intros c' v' s' Hq. eapply Hri. by apply Hsub.
  - intros c' v' s' [Hq|(e & He & [= -> -> ->])]%(relaxed_pushed _ _ _ _ _ Hrel).
    + eapply Hri. by apply Hsub.
    + apply (proj2 Hadj _ _ Hes) in He. destruct (Hri _ _ _ Hin) as [c0 Hw].
      eexists. by econstructor.
Qed.

(** With no route within the limit, the loop can only end on [-1]. *)
Lemma while_fuel_no_route n flights adj src dst k i st r :
  k ≤ INT_MAX - 2 → Forall (valid_flight n) flights → adj_of n flights adj →
  safe_state n k st → reach_items flights src st →
  (∀ m c, walk flights src dst m c → ¬ m ≤ k + 1) →
  while_fuel (while_step adj dst k) i st = inr r → r = Ret (-1).
Proof.
  intros Hk Hall Hadj Hsafe Hri Hno. revert st Hsafe Hri.
  induction i as [|i IH]; intros st Hsafe Hri; simpl; [done|].
  destruct (while_step_safe n flights adj dst k st Hk Hall Hadj Hsafe)
    as [Hcase Hnext].
  destruct (while_step adj dst k st) as [st'|r'] eqn:Hstep.
  { apply IH; [by apply Hnext|]. by eapply while_step_reach_items. }
  intros [= <-]. inversion Hcase as [|c s q Hpop| |]; subst; [done|].
  destruct (pq_pop_elem_of _ _ _ Hpop) as [Hin _].
  destruct (Hri _ _ _ Hin) as [c' Hw]. destruct (Hno _ _ Hw).
  destruct Hsafe as [_ Hq]. rewrite Forall_forall in Hq.
  destruct (Hq _ Hin) as [_ Hs]. unfold t_stops in Hs. simpl in Hs. lia.
Qed.

(** Table entries never go up. *)
Definition cells_below (st st' : search_state) : Prop :=
  ∀ v j d, cell st.2 v j = Some d → ∃ d', cell st'.2 v j = Some d' ∧ d' ≤ d.

Lemma while_step_cells n flights adj dst k st st' :
  k ≤ INT_MAX - 2 → Forall (valid_flight n) flights → adj_of n flights adj →
  safe_state n k st → while_step adj dst k st = inl st' → cells_below st st'.
Proof.
  intros Hk Hall Hadj Hsafe Hstep.
  destruct (while_step_safe n flights adj dst k st Hk Hall Hadj Hsafe)
    as [Hcase _].
  rewrite Hstep in Hcase.
  inversion Hcase as [| |c u s q Hpop Hu Hs|c u s q es st1 Hpop Hu Hs Hes Hrel];
    subst.
  - intros v j d Hd. exists d. split; [done|lia].
  - intros v j d Hd.
    destruct (relaxed_cells _ _ _ _ _ Hrel _ _ _ Hd) as (d' & Hd' & Hle & _).
    by exists d'.
Qed.

Lemma while_fuel_cells n flights adj dst k i st st' :
  k ≤ INT_MAX - 2 → Forall (valid_flight n) flights → adj_of n flights adj →
  safe_state n k st → reached adj dst k st i st' → cells_below st st'.
Proof.
  intros Hk Hall Hadj. unfold reached. revert st.
  induction i as [|i IH]; intros st Hsafe; simpl.
  - intros [= <-] v j d Hd. exists d. split; [done|lia].
  - destruct (while_step adj dst k st) as [st1|] eqn:Hstep; [|done].
    intros Hrest v j d Hd.
    destruct (while_step_cells _ _ _ _ _ _ _ Hk Hall Hadj Hsafe Hstep _ _ _ Hd)
      as (d1 & Hd1 & Hle1).
    destruct (IH st1) with (v := v) (j := j) (d := d1) as (d2 & Hd2 & Hle2);
      [|done|done|].
    { by apply (while_step_safe n flights adj dst k st Hk Hall Hadj Hsafe). }
    exists d2. split; [done|lia].
Qed.

(** The additions [current_cost + flight_cost] of the iteration that
    starts in [st] are exact: none leaves the range of [int]. *)
Definition sums_exact (adj : list (list Edge)) (dst k : Z) (st : search_state)
  : Prop :=
  ∀ c u s q es e,
    pq_pop st.1 = Some ((c, u, s), q) → u ≠ dst → ¬ s > k →
    vec_at adj u = Some es → e ∈ es →
    int_add c (cost e) = c + cost e.

End Along.

(** ** Routes that visit no city twice

    A [walk] may pass through a city more than once.  Cutting the loops
    out of a route gives one that visits no city twice, with no more
    flights and, when costs are not negative, at no higher cost: the
    cheapest routes are the same under both readings. *)

(** [path flights src cities v c]: consecutive flights lead from [src]
    through [cities], in this order, the last of them being [v]. *)
Inductive path (flights : list (list Z)) (src : Z)
  : list Z → Z → Z → Prop :=
  | path_start : path flights src [] src 0
  | path_step cities v x w c :
      path flights src cities v c → edge flights v x w →
      path flights src (cities ++ [x]) x (c + w).

Definition simple_route (flights : list (list Z)) (src dst k c : Z) : Prop :=
  ∃ cities, path flights src cities dst c ∧ NoDup (src :: cities) ∧
    stops_of (Z.of_nat (length cities)) ≤ k.

Definition cheapest_simple (flights : list (list Z)) (src dst k c : Z) : Prop :=
  simple_route flights src dst k c ∧
  ∀ c', simple_route flights src dst k c' → c ≤ c'.

Lemma path_walk flights src cities v c :
  path flights src cities v c →
  walk flights src v (Z.of_nat (length cities)) c.
Proof.
  induction 1 as [|cities v x w c _ IH He]; [constructor|].
  rewrite length_app, Nat2Z.inj_add. simpl. by econstructor.
Qed.

Lemma walk_path flights src v m c :
  walk flights src v m c →
  ∃ cities, Z.of_nat (length cities) = m ∧ path flights src cities v c.
Proof.
  induction 1 as [|v x w m c _ (cities & Hlen & Hp) He].
  - exists []. split; [done|constructor].
  - exists (cities ++ [x]). split; [|by econstructor].
    rewrite length_app, Nat2Z.inj_add. simpl. lia.
Qed.

(** A route that visits no city twice can be cut at any of its cities. *)
Lemma path_cut flights src cities v c x :
  path flights src cities v c → NoDup (src :: cities) → x ∈ src :: cities →
  ∃ cities' c', path flights src cities' x c' ∧ NoDup (src :: cities') ∧
    (length cities' ≤ length cities)%nat ∧ (nonneg_costs flights → c' ≤ c).
Proof.
  induction 1 as [|cities v y w c Hp IH He]; intros Hnd Hx.
  - apply list_elem_of_singleton in Hx as ->.
    exists [], 0. split; [constructor|]. split; [done|]. split; [done|lia].
  - destruct (decide (x = y)) as [->|Hne].
    + exists (cities ++ [y]), (c + w). split; [by econstructor|].
      split; [done|]. split; [done|lia].
    + assert (NoDup (src :: cities)) as Hnd'.
      { rewrite app_comm_cons in Hnd. by apply NoDup_app in Hnd as [? _]. }
      destruct IH as (cities' & c' & Hp' & Hnd'' & Hlen & Hc); [done| |].
      { rewrite app_comm_cons in Hx.
        apply elem_of_app in Hx as [?|Hx]; [done|].
        by apply list_elem_of_singleton in Hx. }
      exists cities', c'. split; [done|]. split; [done|].
      split; [rewrite length_app; lia|].
      intros Hnn. specialize (Hc Hnn).
      pose proof (edge_nonneg _ _ _ _ Hnn He). lia.
Qed.

(** Cutting the loops out of a route. *)
Lemma path_simplify flights src cities v c :
  path flights src cities v c →
  ∃ cities' c', path flights src cities' v c' ∧ NoDup (src :: cities') ∧
    (length cities' ≤ length cities)%nat ∧ (nonneg_costs flights → c' ≤ c).
Proof.
  induction 1 as [|cities v x w c Hp (cities1 & c1 & Hp1 & Hnd1 & Hlen1 & Hc1) He].
  - exists [], 0. split; [constructor|]. split; [|split; [done|lia]].
    apply NoDup_singleton.
  - destruct (decide (x ∈ src :: cities1)) as [Hin|Hnotin].
    + destruct (path_cut _ _ _ _ _ x Hp1 Hnd1 Hin)
        as (cities2 & c2 & Hp2 & Hnd2 & Hlen2 & Hc2).
      exists cities2, c2. split; [done|]. split; [done|].
      split; [rewrite length_app; lia|].
      intros Hnn. specialize (Hc1 Hnn). specialize (Hc2 Hnn).
      pose proof (edge_nonneg _ _ _ _ Hnn He). lia.
    + exists (cities1 ++ [x]), (c1 + w). split; [by econstructor|].
      split; [|split; [rewrite !length_app; simpl; lia|]].
      * rewrite app_comm_cons. apply NoDup_app. split; [done|].
        split; [|apply NoDup_singleton].
        intros y Hy ->%list_elem_of_singleton. done.
      * intros Hnn. specialize (Hc1 Hnn). lia.
Qed.

Lemma simple_route_route flights src dst k c :
  simple_route flights src dst k c → route flights src dst k c.
Proof.
  intros (cities & Hp & _ & Hk). eexists. split; [by apply path_walk|done].
Qed.

Lemma route_simple_route flights src dst k c :
  route flights src dst k c →
  ∃ c', simple_route flights src dst k c' ∧ (nonneg_costs flights → c' ≤ c).
Proof.
  intros (m & (cities & <- & Hp)%walk_path & Hk).
  destruct (path_simplify _ _ _ _ _ Hp) as (cities' & c' & Hp' & Hnd & Hlen & Hc).
  exists c'. split; [|done]. exists cities'. split; [done|]. split; [done|].
  unfold stops_of in *. lia.
Qed.

(** There is a route within the limit exactly when there is one that
    visits no city twice. *)
Lemma no_route_simple flights src dst k :
  (∀ c, ¬ route flights src dst k c) ↔
  (∀ c, ¬ simple_route flights src dst k c).
Proof.
  split.
  - intros Hno c Hs. by apply (Hno c), simple_route_route.
  - intros Hno c (c' & Hs & _)%route_simple_route. by apply (Hno c').
Qed.

(** The least cost is the same under both readings. *)
Lemma cheapest_simple_iff flights src dst k c :
  nonneg_costs flights →
  cheapest flights src dst k c ↔ cheapest_simple flights src dst k c.
Proof.
  intros Hnn. split.
  - intros [Hr Hmin]. split.
    + destruct (route_simple_route _ _ _ _ _ Hr) as (c' & Hs & Hc).
      specialize (Hc Hnn).
      pose proof (Hmin _ (simple_route_route _ _ _ _ _ Hs)).
      by replace c with c' by lia.
    + intros c' Hs. by apply Hmin, simple_route_route.
  - intros [Hs Hmin]. split; [by apply simple_route_route|].
    intros c' (c'' & Hs' & Hc)%route_simple_route.
    specialize (Hc Hnn). specialize (Hmin _ Hs'). lia.
Qed.

(** ** Concrete inputs *)

(** The flights of [main]: New York = 0, London = 1, Paris = 2, Berlin = 3,
    Rome = 4. *)
Definition example_flights : list (list Z) :=
  [[0; 1; 500]; [0; 2; 600]; [1; 2; 150]; [1; 3; 200];
   [2; 3; 180]; [2; 4; 250]; [3; 4; 300]; [4; 0; 700]].

(** Two flights whose costs add up to [INT_MAX + 1]. *)
Definition overflow_flights : list (list Z) :=
  [[0; 1; 2147483646]; [1; 2; 2]].

(** One flight that costs [INT_MAX]. *)
Definition max_cost_flights : list (list Z) := [[0; 1; 2147483647]].

(** A direct flight, and a detour of three flights whose costs add up to
    [2 ^ 32 - 1]. *)
Definition detour_flights : list (list Z) :=
  [[0; 1; 2147483646]; [0; 2; 2147483645]; [2; 3; 2147483647]; [3; 1; 3]].

(** A round trip between two cities, at 2,000,000,000 each way. *)
Definition round_trip_flights : list (list Z) :=
  [[0; 1; 2000000000]; [1; 0; 2000000000]].

Ltac each_flight := repeat (constructor; [simpl; lia|]); constructor.

Ltac valid_graph_tac := split; [lia|lia|lia|each_flight].

Lemma example_valid : valid_graph 5 example_flights 0 4.
Proof. valid_graph_tac. Qed.

Lemma example_nonneg : nonneg_costs example_flights.
Proof. each_flight. Qed.

Lemma example_bounded k : 0 ≤ k ≤ 1000 → bounded_costs example_flights 0 k.
Proof.
  intros Hk. apply (bounded_costs_by_max _ _ _ 700); [lia|each_flight|].
  unfold INT_MAX. lia.
Qed.

Lemma example_fit k : 0 ≤ k ≤ 1000 → costs_fit example_flights 0 k.
Proof. intros Hk. by apply bounded_costs_fit, example_bounded. Qed.

(** The adjacency list and the first state of the search on the flights
    of [main], from city 0 with [k = 1]. *)
Definition example_adj : list (list Edge) :=
  Eval vm_compute in
    default [] (fst <$> init_search (PQ := ListQueue) 5 example_flights 0 1).

Definition example_start : search_state (PQ := ListQueue) :=
  Eval vm_compute in
    default ([], []) (snd <$> init_search (PQ := ListQueue) 5 example_flights 0 1).

Lemma example_init :
  init_search (PQ := ListQueue) 5 example_flights 0 1
  = Some (example_adj, example_start).
Proof. vm_compute. reflexivity. Qed.

(** The state after the first iteration. *)
Definition example_next : search_state (PQ := ListQueue) :=
  Eval vm_compute in
    match while_fuel (while_step (PQ := ListQueue) example_adj 4 1) 1
            example_start with
    | inl st => st
    | inr _ => example_start
    end.

(** ** The claims *)

(** C1 (as amended). On a valid input with non-negative costs, [k >= 0],
    and on which no route of at most [k + 1] flights out of [src] costs
    more than [INT_MAX], a returned value other than [-1] is the least cost
    of a route from [src] to [dst] with at most [k] intermediate cities,
    whether or not routes may visit a city twice. *)
Theorem C1_returned_cost_is_cheapest (PQ : PriorityQueue)
    n flights src dst k v :
  valid_graph n flights src dst → nonneg_costs flights → 0 ≤ k ≤ INT_MAX →
  costs_fit flights src k →
  findCheapestPrice n flights src dst k = Ret v → v ≠ -1 →
  cheapest flights src dst k v ∧ cheapest_simple flights src dst k v.
Proof.
  intros Hvalid Hnn Hk Hfit Hret Hv.
  assert (cheapest flights src dst k v) as Hch.
  { destruct (decide (k ≤ INT_MAX - 2)) as [Hk2|Hk2].
    - pose proof (search_correct n flights src dst k Hvalid ltac:(lia) Hnn Hfit)
        as Hres.
      apply search_result_cheapest in Hres; [|lia|done].
      rewrite Hret in Hres.
      destruct Hres as [[[= ->] _]|(c & [= ->] & _ & Hch)]; done.
    - rewrite search_faults in Hret by lia. done. }
  split; [done|]. by apply cheapest_simple_iff.
Qed.

(** On the flights of [main], 850 is the least cost from 0 to 4 with at
    most one stop. *)
Lemma C1_witness :
  cheapest example_flights 0 4 1 850 ∧ cheapest_simple example_flights 0 4 1 850.
Proof.
  apply (C1_returned_cost_is_cheapest ListQueue 5 example_flights 0 4 1 850).
  - exact example_valid.
  - exact example_nonneg.
  - unfold INT_MAX. lia.
  - apply example_fit. lia.
  - vm_compute. reflexivity.
  - lia.
Defined.

(** C1 as stated fails: with costs 2147483646 and 2 the sum wraps to
    [INT_MIN], which is returned although it is the cost of no route. *)
Lemma C1_counterexample :
  valid_graph 3 overflow_flights 0 2 ∧ nonneg_costs overflow_flights ∧
  findCheapestPrice (PQ := ListQueue) 3 overflow_flights 0 2 1
    = Ret (-2147483648) ∧
  ¬ cheapest overflow_flights 0 2 1 (-2147483648).
Proof.
  assert (nonneg_costs overflow_flights) as Hnn by each_flight.
  split; [valid_graph_tac|]. split; [done|].
  split; [vm_compute; reflexivity|].
  intros [(m & Hw & _) _].
  pose proof (walk_cost_nonneg _ _ _ _ _ Hnn Hw). lia.
Qed.

(** C2 (as amended). On a valid input with [0 <= k <= INT_MAX - 2]: if no
    route from [src] to [dst] has at most [k] intermediate cities (in
    particular if there is no route at all) the result is [-1]; and when
    the costs are non-negative and every route of at most [k + 1] flights
    out of [src] costs less than [INT_MAX], the result is [-1] only if
    there is no such route.  (Routes may visit a city twice; by
    [no_route_simple] it is the same to say that none exists that visits
    no city twice.) *)
Theorem C2_unreachable_iff_no_route (PQ : PriorityQueue)
    n flights src dst k :
  valid_graph n flights src dst → 0 ≤ k ≤ INT_MAX - 2 →
  ((∀ c, ¬ route flights src dst k c) →
     findCheapestPrice n flights src dst k = Ret (-1)) ∧
  ((∀ m c, ¬ walk flights src dst m c) →
     findCheapestPrice n flights src dst k = Ret (-1)) ∧
  (nonneg_costs flights → bounded_costs flights src k →
     findCheapestPrice n flights src dst k = Ret (-1) →
     ∀ c, ¬ route flights src dst k c).
Proof.
  intros Hvalid Hk.
  assert ((∀ c, ¬ route flights src dst k c) →
          findCheapestPrice n flights src dst k = Ret (-1)) as Hno.
  { intros Hno.
    destruct (init_search_spec n flights src dst k Hvalid ltac:(lia))
      as (adj & st & Hinit & Hadj & Hsafe & Hints & Hq & _).
    destruct (runs_total adj dst k st Hints) as [r Hr].
    rewrite (findCheapestPrice_runs _ _ _ _ _ _ _ _ Hinit Hints Hr).
    destruct Hr as [i Hi].
    apply (while_fuel_no_route n flights adj src dst k i st r);
      [lia|apply Hvalid|done|done| | |done].
    - intros c v s Hin. rewrite Hq in Hin.
      apply list_elem_of_singleton in Hin as [= -> -> ->].
      exists 0. constructor.
    - intros m c Hw Hm. apply (Hno c). apply route_flights; [lia|eauto]. }
  split; [done|]. split.
  - intros Hnone. apply Hno. intros c (m & Hw & _). by apply (Hnone m c).
  - intros Hnn Hb Hret.
    pose proof (search_correct n flights src dst k Hvalid ltac:(lia) Hnn
                  (bounded_costs_fit _ _ _ Hb)) as Hres.
    apply search_result_cheapest in Hres; [|lia|done].
    rewrite Hret in Hres.
    destruct Hres as [[_ Hmax]|(c & [= <-] & ? & _)]; [|lia].
    intros c Hr. pose proof (Hmax _ Hr).
    destruct Hr as (m & Hw & Hm). unfold stops_of in Hm.
    pose proof (Hb _ _ _ Hw ltac:(lia)). lia.
Qed.

(** The same statement on the flights of [main], from 0 to 4 with no stop. *)
Lemma C2_witness :
  ((∀ c, ¬ route example_flights 0 4 0 c) →
     findCheapestPrice (PQ := ListQueue) 5 example_flights 0 4 0 = Ret (-1)) ∧
  ((∀ m c, ¬ walk example_flights 0 4 m c) →
     findCheapestPrice (PQ := ListQueue) 5 example_flights 0 4 0 = Ret (-1)) ∧
  (nonneg_costs example_flights → bounded_costs example_flights 0 0 →
     findCheapestPrice (PQ := ListQueue) 5 example_flights 0 4 0 = Ret (-1) →
     ∀ c, ¬ route example_flights 0 4 0 c).
Proof.
  apply (C2_unreachable_iff_no_route ListQueue 5 example_flights 0 4 0).
  - exact example_valid.
  - unfold INT_MAX. lia.
Defined.

(** C2 as stated fails: a single flight of cost [INT_MAX] is a route with
    no intermediate city, yet the result is [-1], because the cost is not
    below the [INT_MAX] that fills the table. *)
Lemma C2_counterexample :
  valid_graph 2 max_cost_flights 0 1 ∧ nonneg_costs max_cost_flights ∧
  findCheapestPrice (PQ := ListQueue) 2 max_cost_flights 0 1 0 = Ret (-1) ∧
  route max_cost_flights 0 1 0 2147483647.
Proof.
  split; [valid_graph_tac|]. split; [each_flight|].
  split; [vm_compute; reflexivity|].
  exists 1. split; [|unfold stops_of; lia].
  apply (walk_step _ _ 0 1 2147483647 0 0); [constructor|].
  exists [0; 1; 2147483647]. split; [left|done].
Qed.

(** C3 (as amended). On a valid input with [src = dst] and
    [0 <= k <= INT_MAX - 2] the result is 0, whatever the flights and
    their costs. *)
Theorem C3_same_city_costs_nothing (PQ : PriorityQueue) n flights src k :
  valid_graph n flights src src → 0 ≤ k ≤ INT_MAX - 2 →
  findCheapestPrice n flights src src k = Ret 0.
Proof.
  intros Hvalid Hk.
  destruct (init_search_spec n flights src src k Hvalid ltac:(lia))
    as (adj & st & Hinit & _ & _ & Hints & Hq & _).
  apply (findCheapestPrice_runs _ _ _ _ _ _ _ _ Hinit Hints).
  apply runs_stop. unfold while_step.
  destruct (pq_pop_nonempty st.1) as [[t q] Hpop]; [by rewrite Hq|].
  destruct (pq_pop_elem_of _ _ _ Hpop) as [Hin _]. rewrite Hq in Hin.
  apply list_elem_of_singleton in Hin as ->.
  rewrite Hpop. by rewrite decide_True.
Qed.

(** From New York to New York on the flights of [main]. *)
Lemma C3_witness :
  findCheapestPrice (PQ := ListQueue) 5 example_flights 0 0 1 = Ret 0.
Proof.
  apply (C3_same_city_costs_nothing ListQueue 5 example_flights 0 1).
  - valid_graph_tac.
  - unfold INT_MAX. lia.
Defined.

(** C3 as stated fails: for [k = INT_MAX - 1] the column count [k + 2] of
    the table wraps to a negative [int] and the table cannot be built. *)
Lemma C3_counterexample :
  valid_graph 1 [] 0 0 ∧ nonneg_costs [] ∧ 0 ≤ 2147483646 ≤ INT_MAX ∧
  findCheapestPrice (PQ := ListQueue) 1 [] 0 0 2147483646 = Fault.
Proof.
  split; [valid_graph_tac|]. split; [each_flight|].
  split; [unfold INT_MAX; lia|]. vm_compute. reflexivity.
Qed.

(** [r2] is no more expensive than [r1], the result [-1] counting as
    costlier than every cost. *)
Definition no_costlier (r2 r1 : Z) : Prop := r1 = -1 ∨ (r2 ≠ -1 ∧ r2 ≤ r1).

(** C4 (as amended). On a valid input with non-negative costs,
    [0 <= k1 <= k2 <= INT_MAX - 2], and on which no route of at most
    [k2 + 1] flights out of [src] costs more than [INT_MAX], both searches
    return and the result for [k2] is no more expensive than the result
    for [k1]. *)
Theorem C4_more_stops_never_cost_more (PQ : PriorityQueue)
    n flights src dst k1 k2 :
  valid_graph n flights src dst → nonneg_costs flights →
  0 ≤ k1 ≤ k2 → k2 ≤ INT_MAX - 2 → costs_fit flights src k2 →
  ∃ r1 r2,
    findCheapestPrice n flights src dst k1 = Ret r1 ∧
    findCheapestPrice n flights src dst k2 = Ret r2 ∧
    no_costlier r2 r1.
Proof.
  intros Hvalid Hnn Hk1 Hk2 Hfit2.
  assert (costs_fit flights src k1) as Hfit1.
  { intros v m c Hw Hm. apply (Hfit2 _ _ _ Hw). lia. }
  pose proof (search_correct n flights src dst k1 Hvalid ltac:(lia) Hnn Hfit1)
    as H1.
  pose proof (search_correct n flights src dst k2 Hvalid ltac:(lia) Hnn Hfit2)
    as H2.
  destruct H1 as [[-> _]|(c1 & -> & Hc1 & (m1 & Hw1 & Hm1) & _)].
  - destruct H2 as [[-> _]|(c2 & -> & _)]; eexists _, _;
      (split; [done|split; [done|by left]]).
  - destruct H2 as [[_ Hno]|(c2 & -> & _ & (m2 & Hw2 & _) & Hmin)].
    + pose proof (Hno _ _ Hw1 ltac:(lia)). lia.
    + exists c1, c2. split; [done|]. split; [done|]. right.
      pose proof (walk_cost_nonneg _ _ _ _ _ Hnn Hw2).
      pose proof (Hmin _ _ Hw1 ltac:(lia)). lia.
Qed.

(** On the flights of [main]: no stop against one stop. *)
Lemma C4_witness :
  ∃ r1 r2,
    findCheapestPrice (PQ := ListQueue) 5 example_flights 0 4 0 = Ret r1 ∧
    findCheapestPrice (PQ := ListQueue) 5 example_flights 0 4 1 = Ret r2 ∧
    no_costlier r2 r1.
Proof.
  apply (C4_more_stops_never_cost_more ListQueue 5 example_flights 0 4 0 1).
  - exact example_valid.
  - exact example_nonneg.
  - lia.
  - unfold INT_MAX. lia.
  - apply example_fit. lia.
Defined.

(** C4 as stated fails: with no stop the direct flight is found, at
    2147483646; with two stops the detour, whose cost wraps to [-1], is
    served first and the result reads as "unreachable". *)
Lemma C4_counterexample :
  valid_graph 4 detour_flights 0 1 ∧ nonneg_costs detour_flights ∧
  findCheapestPrice (PQ := ListQueue) 4 detour_flights 0 1 0 = Ret 2147483646 ∧
  findCheapestPrice (PQ := ListQueue) 4 detour_flights 0 1 2 = Ret (-1) ∧
  ¬ no_costlier (-1) 2147483646.
Proof.
  split; [valid_graph_tac|]. split; [each_flight|].
  split; [vm_compute; reflexivity|]. split; [vm_compute; reflexivity|].
  unfold no_costlier. lia.
Qed.

(** C5. On the flights of [main], from New York (0) to Rome (4), the
    result is 850 for [k = 1], 850 for [k = 2] and [-1] for [k = 0],
    with any implementation of the queue. *)
Theorem C5_example_prices (PQ : PriorityQueue) :
  findCheapestPrice 5 example_flights 0 4 1 = Ret 850 ∧
  findCheapestPrice 5 example_flights 0 4 2 = Ret 850 ∧
  findCheapestPrice 5 example_flights 0 4 0 = Ret (-1).
Proof.
  assert (∀ k, 0 ≤ k ≤ 2 →
    findCheapestPrice 5 example_flights 0 4 k =
    findCheapestPrice (PQ := ListQueue) 5 example_flights 0 4 k) as Heq.
  { intros k Hk. apply queue_independent.
    - exact example_valid.
    - unfold INT_MAX. lia.
    - exact example_nonneg.
    - apply example_fit. lia. }
  rewrite !Heq by lia. repeat split; vm_compute; reflexivity.
Qed.

(** C6 (as amended). On a valid input with [0 <= k <= INT_MAX - 2],
    whatever the costs, every vector access of the search is within
    bounds: the call returns a value (an access out of range would be a
    fault), and in every state of the loop the table has [n] rows of
    [k + 2] columns and every frontier entry has its city in [[0, n)] and
    its stop count in [[0, k + 1]]. *)
Theorem C6_accesses_within_bounds (PQ : PriorityQueue)
    n flights src dst k :
  valid_graph n flights src dst → 0 ≤ k ≤ INT_MAX - 2 →
  (∃ v, findCheapestPrice n flights src dst k = Ret v) ∧
  ∃ adj st0, init_search n flights src k = Some (adj, st0) ∧
    Z.of_nat (length adj) = n ∧
    ∀ i st, reached adj dst k st0 i st → safe_state n k st.
Proof.
  intros Hvalid Hk. split; [apply search_returns; [done|lia]|].
  destruct (init_search_spec n flights src dst k Hvalid ltac:(lia))
    as (adj & st & Hinit & Hadj & Hsafe & _).
  exists adj, st. split; [done|]. split; [apply Hadj|].
  intros i st' Hi.
  apply (reached_safe n flights adj dst k st i st'); [lia|apply Hvalid|done..].
Qed.

(** On the flights of [main], from 0 to 4 with at most one stop. *)
Lemma C6_witness :
  (∃ v, findCheapestPrice (PQ := ListQueue) 5 example_flights 0 4 1 = Ret v) ∧
  ∃ adj st0,
    init_search (PQ := ListQueue) 5 example_flights 0 1 = Some (adj, st0) ∧
    Z.of_nat (length adj) = 5 ∧
    ∀ i st, reached adj 4 1 st0 i st → safe_state 5 1 st.
Proof.
  apply (C6_accesses_within_bounds ListQueue 5 example_flights 0 4 1).
  - exact example_valid.
  - unfold INT_MAX. lia.
Defined.

(** C6 as stated fails: for [k = INT_MAX] the column count [k + 2] wraps
    to a negative [int], the table cannot be built and the call does not
    run to completion. *)
Lemma C6_counterexample :
  valid_graph 2 [[0; 1; 5]] 0 1 ∧ 0 ≤ 2147483647 ≤ INT_MAX ∧
  findCheapestPrice (PQ := ListQueue) 2 [[0; 1; 5]] 0 1 2147483647 = Fault.
Proof.
  split; [valid_graph_tac|]. split; [unfold INT_MAX; lia|].
  vm_compute. reflexivity.
Qed.

(** C7. On a valid input with [k >= 0], once the search has started, every
    iteration that continues lowers the potential (the size of the
    frontier plus the total height of the [n * (k + 2)] table entries
    above [INT_MIN]; each push lowers an entry), so the loop ends within
    [n * (k + 2) * (2 ^ 32 - 1) + 2] iterations, and the iteration budget
    of [findCheapestPrice] is never used up. *)
Theorem C7_search_loop_terminates (PQ : PriorityQueue)
    n flights src dst k adj st0 :
  valid_graph n flights src dst → 0 ≤ k ≤ INT_MAX →
  init_search n flights src k = Some (adj, st0) →
  (∀ i st st', reached adj dst k st0 i st →
     while_step adj dst k st = inl st' → 0 ≤ potential st' < potential st) ∧
  potential st0 ≤ n * (k + 2) * 4294967295 + 1 ∧
  (∃ r, while_fuel (while_step adj dst k)
          (Z.to_nat (n * (k + 2) * 4294967295 + 2)) st0 = inr r) ∧
  (∃ r, while_pow2 (while_step adj dst k) (depth st0) st0 = inr r).
Proof.
  intros Hvalid Hk Hinit.
  destruct (init_search_started n flights src dst k adj st0 Hvalid
              ltac:(lia) Hinit)
    as (Hk2 & Hadj & Hsafe & Hints & Hq & Hslack).
  assert (potential st0 ≤ n * (k + 2) * 4294967295 + 1) as Hpot.
  { unfold potential. rewrite Hq. simpl. lia. }
  split; [|split; [done|split]].
  - intros i st st' Hi Hstep.
    assert (table_ints st.2) as Hints'.
    { apply (while_fuel_invariant (while_step adj dst k)
               (λ st, table_ints st.2) i st0 st); [|done|done].
      intros st1 st2 H1 H12.
      by destruct (while_step_potential _ _ _ _ _ H1 H12). }
    destruct (while_step_potential _ _ _ _ _ Hints' Hstep) as [Hints'' Hlt].
    pose proof (potential_nonneg _ Hints''). lia.
  - apply search_ends; [done|]. pose proof (potential_nonneg _ Hints). lia.
  - destruct (runs_total adj dst k st0 Hints) as [r Hr].
    exists r. by apply while_pow2_runs.
Qed.

(** On the flights of [main], from 0 to 4 with at most one stop. *)
Lemma C7_witness :
  (∀ i st st', reached (PQ := ListQueue) example_adj 4 1 example_start i st →
     while_step example_adj 4 1 st = inl st' →
     0 ≤ potential st' < potential st) ∧
  potential (PQ := ListQueue) example_start ≤ 5 * (1 + 2) * 4294967295 + 1 ∧
  (∃ r, while_fuel (while_step (PQ := ListQueue) example_adj 4 1)
          (Z.to_nat (5 * (1 + 2) * 4294967295 + 2)) example_start = inr r) ∧
  (∃ r, while_pow2 (while_step (PQ := ListQueue) example_adj 4 1)
          (depth (PQ := ListQueue) example_start) example_start = inr r).
Proof.
  apply (C7_search_loop_terminates ListQueue 5 example_flights 0 4 1
           example_adj example_start).
  - exact example_valid.
  - unfold INT_MAX. lia.
  - exact example_init.
Defined.

(** C8. On a valid input with [k >= 0], all along the search the table
    keeps its [n] rows of [k + 2] columns (one value for each city and
    stop count), no entry ever goes up, and a relaxation that writes an
    entry writes a value strictly below the one it replaces. *)
Theorem C8_table_entries_only_decrease (PQ : PriorityQueue)
    n flights src dst k adj st0 :
  valid_graph n flights src dst → 0 ≤ k ≤ INT_MAX →
  init_search n flights src k = Some (adj, st0) →
  (∀ i st, reached adj dst k st0 i st → table_shape n (k + 2) st.2) ∧
  (∀ i j st_i st_j, (i ≤ j)%nat →
     reached adj dst k st0 i st_i → reached adj dst k st0 j st_j →
     cells_below st_i st_j) ∧
  (∀ c s e st st', relax c s e st = Some st' →
     st' = st ∨
     ∃ old, cell st.2 (to e) (int_add s 1) = Some old ∧
       int_add c (cost e) < old ∧
       st'.2 = set_cell st.2 (to e) (int_add s 1) (int_add c (cost e))).
Proof.
  intros Hvalid Hk Hinit.
  destruct (init_search_started n flights src dst k adj st0 Hvalid
              ltac:(lia) Hinit)
    as (Hk2 & Hadj & Hsafe & _).
  pose proof (valid_flights _ _ _ _ Hvalid) as Hall.
  split; [|split].
  - intros i st Hi.
    by destruct (reached_safe n flights adj dst k st0 i st Hk2 Hall Hadj Hsafe Hi).
  - intros i j st_i st_j Hij Hi Hj.
    pose proof (reached_safe n flights adj dst k st0 i st_i Hk2 Hall Hadj Hsafe Hi).
    apply (while_fuel_cells n flights adj dst k (j - i) st_i st_j); [done..|].
    by apply (while_fuel_split _ i j st0).
  - intros c s e st st' Hrel. unfold relax in Hrel.
    apply bind_Some in Hrel as (old & Hold & Hrel).
    case_decide; injection Hrel as <-; [right|by left].
    exists old. done.
Qed.

(** On the flights of [main], from 0 to 4 with at most one stop. *)
Lemma C8_witness :
  (∀ i st, reached (PQ := ListQueue) example_adj 4 1 example_start i st →
     table_shape 5 (1 + 2) st.2) ∧
  (∀ i j st_i st_j, (i ≤ j)%nat →
     reached (PQ := ListQueue) example_adj 4 1 example_start i st_i →
     reached (PQ := ListQueue) example_adj 4 1 example_start j st_j →
     cells_below st_i st_j) ∧
  (∀ c s e (st st' : search_state (PQ := ListQueue)),
     relax c s e st = Some st' →
     st' = st ∨
     ∃ old, cell st.2 (to e) (int_add s 1) = Some old ∧
       int_add c (cost e) < old ∧
       st'.2 = set_cell st.2 (to e) (int_add s 1) (int_add c (cost e))).
Proof.
  apply (C8_table_entries_only_decrease ListQueue 5 example_flights 0 4 1
           example_adj example_start).
  - exact example_valid.
  - unfold INT_MAX. lia.
  - exact example_init.
Defined.

(** C9 (as amended). On a valid input with non-negative costs, [k >= 0],
    and on which no route of at most [k + 1] flights out of [src] costs
    more than [INT_MAX], every sum [current_cost + flight_cost] the search
    computes is exact.  (The code has no guard against overflow and
    states no bound on the costs.) *)
Theorem C9_sums_exact_when_costs_fit (PQ : PriorityQueue)
    n flights src dst k adj st0 :
  valid_graph n flights src dst → nonneg_costs flights → 0 ≤ k ≤ INT_MAX →
  costs_fit flights src k →
  init_search n flights src k = Some (adj, st0) →
  ∀ i st, reached adj dst k st0 i st → sums_exact adj dst k st.
Proof.
  intros Hvalid Hnn Hk Hfit Hinit i st Hi.
  destruct (init_search_started n flights src dst k adj st0 Hvalid
              ltac:(lia) Hinit)
    as (Hk2 & Hadj & Hsafe & _ & Hq & _).
  pose proof (valid_flights _ _ _ _ Hvalid) as Hall.
  assert (safe_state n k st ∧ walk_items flights src st) as [_ Hwi].
  { apply (while_fuel_invariant (while_step adj dst k)
             (λ st, safe_state n k st ∧ walk_items flights src st) i st0 st);
      [|split|done].
    - intros st1 st2 [H1 H1'] H12. split.
      + by apply (while_step_safe n flights adj dst k st1 Hk2 Hall Hadj H1).
      + by eapply while_step_walk_items.
    - done.
    - intros c v s Hin. rewrite Hq in Hin.
      apply list_elem_of_singleton in Hin as [= -> -> ->]. constructor. }
  intros c u s q es e Hpop Hu Hs Hes He.
  destruct (pq_pop_elem_of _ _ _ Hpop) as [Hin _].
  apply (proj2 Hadj _ _ Hes) in He.
  by destruct (new_cost_exact _ _ _ _ _ _ _ _ Hnn Hfit (Hwi _ _ _ Hin)
                 ltac:(lia) He).
Qed.

(** The second iteration on the flights of [main] adds exactly. *)
Lemma C9_witness : sums_exact (PQ := ListQueue) example_adj 4 1 example_next.
Proof.
  apply (C9_sums_exact_when_costs_fit ListQueue 5 example_flights 0 4 1
           example_adj example_start) with (i := 1%nat).
  - exact example_valid.
  - exact example_nonneg.
  - unfold INT_MAX. lia.
  - apply example_fit. lia.
  - exact example_init.
  - vm_compute. reflexivity.
Defined.

(** C9 as stated fails: on a round trip at 2,000,000,000 each way the
    second iteration adds 2,000,000,000 to 2,000,000,000, which is not an
    [int]. *)
Lemma C9_counterexample :
  valid_graph 3 round_trip_flights 0 2 ∧ nonneg_costs round_trip_flights ∧
  ∃ adj st0 st,
    init_search (PQ := ListQueue) 3 round_trip_flights 0 1 = Some (adj, st0) ∧
    reached adj 2 1 st0 1 st ∧ ¬ sums_exact adj 2 1 st.
Proof.
  split; [valid_graph_tac|]. split; [each_flight|].
  eexists _, _, _. split; [vm_compute; reflexivity|].
  split; [vm_compute; reflexivity|]. intros Hexact.
  specialize (Hexact 2000000000 1 1 [] [{| to := 0; cost := 2000000000 |}]
                {| to := 0; cost := 2000000000 |}
                eq_refl ltac:(lia) ltac:(lia) eq_refl ltac:(left)).
  vm_compute in Hexact. discriminate.
Qed.

(** C10. On a valid input with [k = -1] the result is 0 when [src = dst]
    and [-1] otherwise. *)
Theorem C10_negative_stop_limit (PQ : PriorityQueue) n flights src dst :
  valid_graph n flights src dst →
  findCheapestPrice n flights src dst (-1) =
  Ret (if decide (src = dst) then 0 else -1).
Proof.
  intros Hvalid.
  destruct (init_search_spec n flights src dst (-1) Hvalid)
    as (adj & st & Hinit & _ & _ & Hints & Hq & _);
    [unfold INT_MAX; lia|].
  apply (findCheapestPrice_runs _ _ _ _ _ _ _ _ Hinit Hints).
  destruct (pq_pop_single _ _ Hq) as (q & Hpop & Hempty).
  case_decide as Hdst.
  - apply runs_stop. unfold while_step. rewrite Hpop. by rewrite decide_True.
  - apply (runs_step _ _ _ _ (q, st.2)).
    + unfold while_step. rewrite Hpop.
      rewrite decide_False by done. by rewrite decide_True by lia.
    + apply runs_stop. unfold while_step. simpl.
      by rewrite (pq_pop_empty _ Hempty).
Qed.

(** On the flights of [main], from 0 to 4. *)
Lemma C10_witness :
  findCheapestPrice (PQ := ListQueue) 5 example_flights 0 4 (-1) =
  Ret (if decide (0 = 4) then 0 else -1).
Proof.
  apply (C10_negative_stop_limit ListQueue 5 example_flights 0 4).
  exact example_valid.
Defined.

(** * Further properties of the code *)

(** ** The comparator *)

(** X1. [CompareFlight] is a strict weak ordering, as [std::priority_queue]
    requires of its comparator: it is irreflexive and transitive, being
    unordered by it is transitive, and two entries are unordered exactly
    when their costs are equal (city and stops play no part). *)
Theorem X1_CompareFlight_strict_weak_order :
  (∀ a, CompareFlight a a = false) ∧
  (∀ a b c, CompareFlight a b = true → CompareFlight b c = true →
     CompareFlight a c = true) ∧
  (∀ a b c,
     CompareFlight a b = false ∧ CompareFlight b a = false →
     CompareFlight b c = false ∧ CompareFlight c b = false →
     CompareFlight a c = false ∧ CompareFlight c a = false) ∧
  (∀ a b, CompareFlight a b = false ∧ CompareFlight b a = false ↔
     t_cost a = t_cost b).
Proof.
  unfold CompareFlight. repeat split.
  - intros a. apply bool_decide_eq_false. lia.
  - intros a b c Hab%bool_decide_eq_true Hbc%bool_decide_eq_true.
    apply bool_decide_eq_true. lia.
  - destruct H as [H1%bool_decide_eq_false H2%bool_decide_eq_false].
    destruct H0 as [H3%bool_decide_eq_false H4%bool_decide_eq_false].
    apply bool_decide_eq_false. lia.
  - destruct H as [H1%bool_decide_eq_false H2%bool_decide_eq_false].
    destruct H0 as [H3%bool_decide_eq_false H4%bool_decide_eq_false].
    apply bool_decide_eq_false. lia.
  - intros [H1%bool_decide_eq_false H2%bool_decide_eq_false]. lia.
  - apply bool_decide_eq_false. lia.
  - apply bool_decide_eq_false. lia.
Qed.

(** ** The adjacency list, flight by flight *)

(** A flight has its three fields and leaves a city of the graph: what
    [adj[flight[0]].push_back({flight[1], flight[2]})] needs. *)
Definition well_formed (n : Z) (flight : list Z) : Prop :=
  match flight with
  | u :: _ :: _ :: _ => 0 ≤ u < n
  | _ => False
  end.

(** The flights out of [u], in the order of the list. *)
Fixpoint out_flights (flights : list (list Z)) (u : Z) : list Edge :=
  match flights with
  | [] => []
  | (a :: b :: c :: _) :: rest =>
      if decide (a = u) then {| to := b; cost := c |} :: out_flights rest u
      else out_flights rest u
  | _ :: rest => out_flights rest u
  end.

Lemma add_flight_Some n adj flight adj' :
  Z.of_nat (length adj) = n → add_flight adj flight = Some adj' →
  well_formed n flight ∧ Z.of_nat (length adj') = n.
Proof.
  intros Hlen. unfold add_flight. intros H.
  apply bind_Some in H as (u & Hu & H). apply bind_Some in H as (v & Hv & H).
  apply bind_Some in H as (w & Hw & H). apply bind_Some in H as (es & Hes & H).
  injection H as <-.
  destruct (flight_fields _ _ _ _ Hu Hv Hw) as [rest ->].
  apply vec_at_Some in Hes as [? Hes%lookup_lt_Some].
  split; [simpl; lia|by rewrite length_insert].
Qed.

Lemma add_flight_well_formed n adj u v w rest :
  Z.of_nat (length adj) = n → 0 ≤ u < n →
  ∃ es, vec_at adj u = Some es ∧
    add_flight adj (u :: v :: w :: rest)
    = Some (<[Z.to_nat u := es ++ [{| to := v; cost := w |}]]> adj).
Proof.
  intros Hlen Hu. destruct (vec_at_is_Some adj u) as [es Hes]; [lia|].
  exists es. split; [done|]. unfold add_flight.
  change (vec_at (u :: v :: w :: rest) 0) with (Some u).
  change (vec_at (u :: v :: w :: rest) 1) with (Some v).
  change (vec_at (u :: v :: w :: rest) 2) with (Some w).
  simpl. by rewrite Hes.
Qed.

Lemma length_concat_insert_snoc {A} (l : list (list A)) i es e :
  l !! i = Some es →
  length (concat (<[i := es ++ [e]]> l)) = Datatypes.S (length (concat l)).
Proof.
  revert i. induction l as [|a l IH]; intros [|i] Hi; simplify_eq/=.
  - rewrite !length_app. simpl. lia.
  - rewrite !length_app, (IH _ Hi). lia.
Qed.

Lemma build_adj_ordered_from n flights adj0 :
  Z.of_nat (length adj0) = n → Forall (well_formed n) flights →
  ∃ adj, build_adj flights adj0 = Some adj ∧ Z.of_nat (length adj) = n ∧
    (∀ u es0, vec_at adj0 u = Some es0 →
       vec_at adj u = Some (es0 ++ out_flights flights u)) ∧
    length (concat adj) = (length (concat adj0) + length flights)%nat.
Proof.
  intros Hlen Hall. revert adj0 Hlen.
  induction Hall as [|flight flights Hf _ IH]; intros adj0 Hlen.
  - exists adj0. split; [done|]. split; [done|]. split; [|simpl; lia].
    intros u es0 Hu. simpl. by rewrite app_nil_r.
  - destruct flight as [|u0 [|v0 [|w0 rest]]]; try done. simpl in Hf.
    destruct (add_flight_well_formed n adj0 u0 v0 w0 rest Hlen Hf)
      as (es & Hes & Hadd).
    destruct (IH (<[Z.to_nat u0 := es ++ [{| to := v0; cost := w0 |}]]> adj0))
      as (adj & Hb & Hl & Hadj & Hcount); [by rewrite length_insert|].
    exists adj. split; [simpl; by rewrite Hadd|]. split; [done|]. split.
    + intros u es0 Hu. simpl. apply vec_at_Some in Hes as [_ Hes].
      case_decide as Hu0.
      * subst u0. assert (es0 = es) as -> by
          (apply vec_at_Some in Hu as [_ Hu]; congruence).
        rewrite (Hadj u (es ++ [{| to := v0; cost := w0 |}])).
        -- by rewrite <- app_assoc.
        -- apply vec_at_Some. split; [lia|].
           apply list_lookup_insert_eq. by eapply lookup_lt_Some.
      * apply Hadj. apply vec_at_Some in Hu as [? Hu]. apply vec_at_Some.
        split; [done|]. rewrite list_lookup_insert_ne by lia. done.
    + apply vec_at_Some in Hes as [_ Hes].
      rewrite Hcount, (length_concat_insert_snoc _ _ _ _ Hes). simpl. lia.
Qed.

(** X2. On well-formed flights the adjacency list is built, has [n] rows,
    and [adj[u]] holds the flights that leave [u] in the order of the
    input, repeated flights included; no flight is lost or added. *)
Theorem X2_build_adj_keeps_order n flights :
  0 ≤ n → Forall (well_formed n) flights →
  ∃ adj, build_adj flights (replicate (Z.to_nat n) []) = Some adj ∧
    Z.of_nat (length adj) = n ∧
    (∀ u, 0 ≤ u < n → vec_at adj u = Some (out_flights flights u)) ∧
    length (concat adj) = length flights.
Proof.
  intros Hn Hall.
  destruct (build_adj_ordered_from n flights (replicate (Z.to_nat n) []))
    as (adj & Hb & Hl & Hadj & Hcount); [rewrite length_replicate; lia|done|].
  exists adj. split; [done|]. split; [done|]. split.
  - intros u Hu. apply (Hadj u []). apply vec_at_Some. split; [lia|].
    apply lookup_replicate. split; [done|lia].
  - rewrite Hcount. clear. induction (Z.to_nat n) as [|m IH]; simpl; [done|].
    simpl in IH. lia.
Qed.

Lemma X2_witness :
  ∃ adj, build_adj example_flights (replicate (Z.to_nat 5) []) = Some adj ∧
    Z.of_nat (length adj) = 5 ∧
    (∀ u, 0 ≤ u < 5 → vec_at adj u = Some (out_flights example_flights u)) ∧
    length (concat adj) = length example_flights.
Proof.
  apply (X2_build_adj_keeps_order 5 example_flights).
  - lia.
  - each_flight.
Defined.

Lemma build_adj_malformed n flights adj0 flight :
  Z.of_nat (length adj0) = n → flight ∈ flights → ¬ well_formed n flight →
  build_adj flights adj0 = None.
Proof.
  intros Hlen Hin Hbad. revert adj0 Hlen.
  induction flights as [|f flights IH]; intros adj0 Hlen;
    [by apply elem_of_nil in Hin|].
  simpl. destruct (add_flight adj0 f) as [adj1|] eqn:Hadd; [|done]. simpl.
  destruct (add_flight_Some n adj0 f adj1 Hlen Hadd) as [Hwf Hlen1].
  apply elem_of_cons in Hin as [->|Hin]; [done|]. by apply IH.
Qed.

(** X3. A flight with fewer than three fields, or whose first field is not
    a city in [[0, n)], makes the construction of the adjacency list read
    or write out of range: the call faults, wherever the flight stands in
    the list and whatever the other arguments. *)
Theorem X3_malformed_flight_faults (PQ : PriorityQueue)
    n flights src dst k flight :
  flight ∈ flights → ¬ well_formed n flight →
  findCheapestPrice n flights src dst k = Fault.
Proof.
  intros Hin Hbad. unfold findCheapestPrice, init_search.
  destruct (vec_make n []) as [adj0|] eqn:Hadj0; [|done].
  apply vec_make_Some in Hadj0 as [Hn ->]. simpl.
  rewrite (build_adj_malformed n flights _ flight); [done| |done|done].
  rewrite length_replicate. lia.
Qed.

Lemma X3_witness :
  findCheapestPrice (PQ := ListQueue) 3 [[0; 1; 5]; [1; 2]] 0 2 1 = Fault.
Proof.
  apply (X3_malformed_flight_faults ListQueue 3 _ 0 2 1 [1; 2]).
  - right. left.
  - simpl. tauto.
Defined.

(** ** Arguments out of range *)

(** X4. When [src] is not a city in [[0, n)] (in particular when
    [n <= 0]) the write [dist[src][0] = 0] is out of range, or a vector
    cannot be built: the call faults. *)
Theorem X4_source_out_of_range_faults (PQ : PriorityQueue)
    n flights src dst k :
  ¬ 0 ≤ src < n → findCheapestPrice n flights src dst k = Fault.
Proof.
  intros Hsrc. unfold findCheapestPrice, init_search.
  destruct (vec_make n []) as [adj0|]; simpl; [|done].
  destruct (build_adj flights adj0) as [adj|]; simpl; [|done].
  destruct (vec_make (int_add k 2) INT_MAX) as [row|]; simpl; [|done].
  destruct (vec_make n row) as [dist|] eqn:Hdist; simpl; [|done].
  apply vec_make_Some in Hdist as [Hn ->].
  destruct (cell (replicate (Z.to_nat n) row) src 0) as [d|] eqn:Hd; [|done].
  apply cell_Some in Hd as (row' & ? & _ & Hrow & _).
  apply lookup_replicate in Hrow as [_ ?]. lia.
Qed.

Lemma X4_witness :
  findCheapestPrice (PQ := ListQueue) 5 example_flights 5 4 1 = Fault.
Proof.
  apply (X4_source_out_of_range_faults ListQueue 5 example_flights 5 4 1). lia.
Defined.

Lemma walk_stays_inside n flights src v m c :
  Forall (valid_flight n) flights → 0 ≤ src < n →
  walk flights src v m c → 0 ≤ v < n.
Proof.
  intros Hall Hsrc. destruct 1 as [|v x w m c _ He]; [done|].
  by destruct (edge_valid _ _ _ _ _ Hall He).
Qed.

(** X5. The search never uses [dst] as an index: when the flights and
    [src] are valid and [0 <= k <= INT_MAX - 2] but [dst] is not a city in
    [[0, n)], the call does not fault and returns [-1], whatever the
    costs. *)
Theorem X5_destination_out_of_range (PQ : PriorityQueue)
    n flights src dst k :
  Forall (valid_flight n) flights → 0 ≤ src < n → ¬ 0 ≤ dst < n →
  0 ≤ k ≤ INT_MAX - 2 →
  findCheapestPrice n flights src dst k = Ret (-1).
Proof.
  intros Hall Hsrc Hdst Hk.
  assert (valid_graph n flights src src) as Hvalid by (split; [lia|done..]).
  destruct (init_search_spec n flights src src k Hvalid ltac:(lia))
    as (adj & st & Hinit & Hadj & Hsafe & Hints & Hq & _).
  destruct (runs_total adj dst k st Hints) as [r Hr].
  rewrite (findCheapestPrice_runs _ _ _ _ _ _ _ _ Hinit Hints Hr).
  destruct Hr as [i Hi].
  apply (while_fuel_no_route n flights adj src dst k i st r);
    [lia|done|done|done| | |done].
  - intros c v s Hin. rewrite Hq in Hin.
    apply list_elem_of_singleton in Hin as [= -> -> ->].
    exists 0. constructor.
  - intros m c Hw _. apply Hdst. by eapply walk_stays_inside.
Qed.

Lemma X5_witness :
  findCheapestPrice (PQ := ListQueue) 5 example_flights 0 7 1 = Ret (-1).
Proof.
  apply (X5_destination_out_of_range ListQueue 5 example_flights 0 7 1).
  - each_flight.
  - lia.
  - lia.
  - unfold INT_MAX. lia.
Defined.

(** X6. For [k <= -2] the table has no column ([k = -2]) or cannot be
    built ([k < -2]), so [dist[src][0] = 0] has nowhere to go: the call
    faults.  Together with C10, [-1] is the only negative [k] the code
    handles. *)
Theorem X6_stop_limit_below_minus_one_faults (PQ : PriorityQueue)
    n flights src dst k :
  INT_MIN ≤ k ≤ -2 → findCheapestPrice n flights src dst k = Fault.
Proof.
  intros Hk. unfold findCheapestPrice, init_search.
  destruct (vec_make n []) as [adj0|]; simpl; [|done].
  destruct (build_adj flights adj0) as [adj|]; simpl; [|done].
  rewrite (int_add_exact k 2) by (unfold in_int, INT_MIN, INT_MAX in *; lia).
  destruct (vec_make (k + 2) INT_MAX) as [row|] eqn:Hrow; simpl; [|done].
  apply vec_make_Some in Hrow as [Hk2 ->].
  assert (k + 2 = 0) as -> by lia. simpl.
  destruct (vec_make n []) as [dist|] eqn:Hdist; simpl; [|done].
  apply vec_make_Some in Hdist as [Hn ->].
  destruct (cell (replicate (Z.to_nat n) []) src 0) as [d|] eqn:Hd; [|done].
  apply cell_Some in Hd as (row' & _ & _ & Hrow & Hd).
  apply lookup_replicate in Hrow as [-> _]. done.
Qed.

Lemma X6_witness :
  findCheapestPrice (PQ := ListQueue) 5 example_flights 0 0 (-2) = Fault.
Proof.
  apply (X6_stop_limit_below_minus_one_faults ListQueue 5 example_flights 0 0).
  unfold INT_MIN. lia.
Defined.

(** ** The value returned *)

(** X7. On a valid input with non-negative costs that fit [int] and
    [0 <= k <= INT_MAX - 2], the call returns either [-1] or a value in
    [[0, INT_MAX)]: [-1] is never the cost of a route, and no other
    negative value and no [INT_MAX] is ever returned. *)
Theorem X7_result_range (PQ : PriorityQueue) n flights src dst k :
  valid_graph n flights src dst → nonneg_costs flights →
  0 ≤ k ≤ INT_MAX - 2 → costs_fit flights src k →
  ∃ v, findCheapestPrice n flights src dst k = Ret v ∧
    (v = -1 ∨ 0 ≤ v < INT_MAX).
Proof.
  intros Hvalid Hnn Hk Hfit.
  pose proof (search_correct n flights src dst k Hvalid ltac:(lia) Hnn Hfit)
    as [[-> _]|(c & -> & Hc & (m & Hw & _) & _)].
  - exists (-1). split; [done|by left].
  - exists c. split; [done|]. right.
    pose proof (walk_cost_nonneg _ _ _ _ _ Hnn Hw). lia.
Qed.

Lemma X7_witness :
  ∃ v, findCheapestPrice (PQ := ListQueue) 5 example_flights 0 4 1 = Ret v ∧
    (v = -1 ∨ 0 ≤ v < INT_MAX).
Proof.
  apply (X7_result_range ListQueue 5 example_flights 0 4 1).
  - exact example_valid.
  - exact example_nonneg.
  - unfold INT_MAX. lia.
  - apply example_fit. lia.
Defined.

(** ** Ties in the queue *)




(** ** More stops than cities *)



Section Stable.
Context {PQ : PriorityQueue}.


End Stable.



(** ** Changing the list of flights *)








(** ** Costs of any sign *)

(** Every route of at most [k + 1] flights out of [src] has a cost that is
    an [int]. *)
Definition costs_in_int (flights : list (list Z)) (src k : Z) : Prop :=
  ∀ v m c, walk flights src v m c → m ≤ k + 1 → in_int c.

Section AnySign.
Context {PQ : PriorityQueue}.

Lemma while_step_walk_items_signed n flights adj src dst k st st' :
  k ≤ INT_MAX - 2 → Forall (valid_flight n) flights → adj_of n flights adj →
  costs_in_int flights src k →
  safe_state n k st → walk_items flights src st →
  while_step adj dst k st = inl st' → walk_items flights src st'.
Proof.
  intros Hk Hall Hadj Hfit Hsafe Hwi Hstep.
  destruct (while_step_safe n flights adj dst k st Hk Hall Hadj Hsafe)
    as [Hcase _].
  rewrite Hstep in Hcase.
  inversion Hcase as [| |c u s q Hpop Hu Hs|c u s q es st1 Hpop Hu Hs Hes Hrel];
    subst; destruct (pq_pop_elem_of _ _ _ Hpop) as [Hin Hsub].
  - intros c' v' s' Hq. apply Hwi. by apply Hsub.
  - intros c' v' s' [Hq|(e & He & [= -> -> ->])]%(relaxed_pushed _ _ _ _ _ Hrel).
    + apply Hwi. by apply Hsub.
    + apply (proj2 Hadj _ _ Hes) in He.
      assert (walk flights src (to e) (s + 1) (c + cost e)) as Hw
        by (econstructor; [by apply Hwi|done]).
      rewrite int_add_exact; [done|]. apply (Hfit _ _ _ Hw). lia.
Qed.

Lemma while_fuel_sound n flights adj src dst k i st v :
  k ≤ INT_MAX - 2 → Forall (valid_flight n) flights → adj_of n flights adj →
  costs_in_int flights src k →
  safe_state n k st → walk_items flights src st →
  while_fuel (while_step adj dst k) i st = inr (Ret v) →
  v = -1 ∨ ∃ m, walk flights src dst m v ∧ m ≤ k + 1.
Proof.
  intros Hk Hall Hadj Hfit. revert st.
  induction i as [|i IH]; intros st Hsafe Hwi; simpl; [done|].
  destruct (while_step_safe n flights adj dst k st Hk Hall Hadj Hsafe)
    as [Hcase Hnext].
  destruct (while_step adj dst k st) as [st'|r'] eqn:Hstep.
  { apply IH; [by apply Hnext|]. by eapply while_step_walk_items_signed. }
  intros [= ->]. inversion Hcase as [|c s q Hpop| |]; subst; [by left|].
  right. destruct (pq_pop_elem_of _ _ _ Hpop) as [Hin _].
  exists s. split; [by apply Hwi|].
  destruct Hsafe as [_ Hq]. rewrite Forall_forall in Hq.
  destruct (Hq _ Hin) as [_ Hs]. unfold t_stops in Hs. simpl in Hs. lia.
Qed.

End AnySign.

(** X18. Negative costs are not rejected.  On a valid input with costs of
    any sign, [0 <= k <= INT_MAX - 2], and on which the cost of every
    route of at most [k + 1] flights out of [src] is an [int], the call
    still returns, and what it returns is [-1] or the cost of a route from
    [src] to [dst] with at most [k] intermediate cities (not necessarily
    the cheapest one). *)
Theorem X18_any_sign_result_is_a_route (PQ : PriorityQueue)
    n flights src dst k :
  valid_graph n flights src dst → 0 ≤ k ≤ INT_MAX - 2 →
  costs_in_int flights src k →
  ∃ v, findCheapestPrice n flights src dst k = Ret v ∧
    (v = -1 ∨ route flights src dst k v).
Proof.
  intros Hvalid Hk Hfit.
  destruct (init_search_spec n flights src dst k Hvalid ltac:(lia))
    as (adj & st & Hinit & Hadj & Hsafe & Hints & Hq & _).
  destruct (runs_total adj dst k st Hints) as [r Hr].
  rewrite (findCheapestPrice_runs _ _ _ _ _ _ _ _ Hinit Hints Hr).
  destruct Hr as [i Hi].
  pose proof (while_fuel_safe n flights adj dst k i st r ltac:(lia)
    (valid_flights _ _ _ _ Hvalid) Hadj Hsafe Hi) as Hfault.
  destruct r as [v|]; [|done]. exists v. split; [done|].
  destruct (while_fuel_sound n flights adj src dst k i st v) as [?|Hroute];
    [lia|apply Hvalid|done|done|done| |done|by left|].
  - intros c u s Hin. rewrite Hq in Hin.
    apply list_elem_of_singleton in Hin as [= -> -> ->]. constructor.
  - right. apply route_flights; [lia|done].
Qed.

Lemma X18_witness :
  ∃ v, findCheapestPrice (PQ := ListQueue) 3 [[0; 1; 5]; [1; 2; -3]] 0 2 1
       = Ret v ∧
    (v = -1 ∨ route [[0; 1; 5]; [1; 2; -3]] 0 2 1 v).
Proof.
  apply (X18_any_sign_result_is_a_route ListQueue 3 [[0; 1; 5]; [1; 2; -3]]
           0 2 1).
  - valid_graph_tac.
  - unfold INT_MAX. lia.
  - intros v m c Hw Hm.
    assert (0 ≤ m ∧ -3 * m ≤ c ≤ 5 * m) as [? ?].
    { clear Hm. induction Hw as [|v x w m c Hw IH He]; [lia|].
      destruct He as (f & Hin & H0 & H1 & H2).
      repeat (apply elem_of_cons in Hin as [->|Hin];
              [injection H2 as <-; lia|]).
      by apply elem_of_nil in Hin. }
    unfold in_int, INT_MIN, INT_MAX. lia.
Defined.

(** * The demonstration program *)

(** ** City names and their ids

    The two containers of [main]: the map from a city name to its id and
    the vector of names, which [get_id] captures by reference. *)
Record registry := {
  city_to_id : gmap string Z;
  id_to_city : list string;
}.

(** The conversion of a [size_t] to [int]. *)
Definition size_to_int (n : nat) : Z := wrap (Z.of_nat n).

(** [m[key]] read as a value: [std::map::operator[]] creates the entry,
    with 0, when it is missing. *)
Definition map_subscript (m : gmap string Z) (key : string)
  : Z * gmap string Z :=
  match m !! key with
  | Some v => (v, m)
  | None => (0, <[key := 0]> m)
  end.

(** The lambda [get_id] of [main]. *)
Definition get_id (city : string) (r : registry) : Z * registry :=
  let r1 :=
    if decide (city_to_id r !! city = None)
    then {| city_to_id :=
              <[city := size_to_int (length (id_to_city r))]> (city_to_id r);
            id_to_city := id_to_city r ++ [city] |}
    else r in
  let '(id, m) := map_subscript (city_to_id r1) city in
  (id, {| city_to_id := m; id_to_city := id_to_city r1 |}).

Definition empty_registry : registry := {| city_to_id := ∅; id_to_city := [] |}.

(** The containers after a sequence of calls of [get_id]. *)
Definition register_all (cities : list string) : registry :=
  foldl (λ r city, (get_id city r).2) empty_registry cities.

(** The two containers are inverse of each other. *)
Definition registry_ok (r : registry) : Prop :=
  ∀ city id, city_to_id r !! city = Some id ↔ vec_at (id_to_city r) id = Some city.

Lemma get_id_known city r id :
  city_to_id r !! city = Some id → get_id city r = (id, r).
Proof.
  intros Hid. unfold get_id, map_subscript.
  rewrite decide_False by congruence. rewrite Hid. by destruct r.
Qed.

Lemma get_id_new city r :
  city_to_id r !! city = None →
  get_id city r =
  (size_to_int (length (id_to_city r)),
   {| city_to_id :=
        <[city := size_to_int (length (id_to_city r))]> (city_to_id r);
      id_to_city := id_to_city r ++ [city] |}).
Proof.
  intros Hnone. unfold get_id, map_subscript.
  rewrite decide_True by done. simpl. by rewrite lookup_insert_eq.
Qed.

Lemma size_to_int_exact (n : nat) :
  Z.of_nat n ≤ INT_MAX → size_to_int n = Z.of_nat n.
Proof.
  intros Hn. apply wrap_exact. unfold in_int, INT_MIN, INT_MAX in *. lia.
Qed.

Lemma get_id_lookup city r :
  city_to_id (get_id city r).2 !! city = Some (get_id city r).1.
Proof.
  destruct (city_to_id r !! city) as [id|] eqn:Hid.
  - by rewrite (get_id_known _ _ _ Hid).
  - rewrite (get_id_new _ _ Hid). simpl. apply lookup_insert_eq.
Qed.

Lemma get_id_length city r :
  (length (id_to_city (get_id city r).2) ≤
   Datatypes.S (length (id_to_city r)))%nat.
Proof.
  destruct (city_to_id r !! city) as [id|] eqn:Hid.
  - rewrite (get_id_known _ _ _ Hid). simpl. lia.
  - rewrite (get_id_new _ _ Hid). simpl. rewrite length_app. simpl. lia.
Qed.

Lemma vec_at_snoc {A} (l : list A) (x y : A) i :
  vec_at (l ++ [x]) i = Some y ↔
  vec_at l i = Some y ∨ (i = Z.of_nat (length l) ∧ y = x).
Proof.
  rewrite !vec_at_Some. split.
  - intros [Hi H]. apply lookup_app_Some in H as [H|[Hle H]]; [by left; split|].
    right. apply list_lookup_singleton_Some in H as [H ->]. split; [lia|done].
  - intros [[Hi H]|[-> ->]].
    + split; [done|]. by apply lookup_app_l_Some.
    + split; [lia|]. rewrite Nat2Z.id. apply list_lookup_middle. done.
Qed.

Lemma get_id_ok city r :
  registry_ok r → Z.of_nat (length (id_to_city r)) ≤ INT_MAX →
  registry_ok (get_id city r).2.
Proof.
  intros Hok Hlen.
  destruct (city_to_id r !! city) as [id|] eqn:Hid.
  { by rewrite (get_id_known _ _ _ Hid). }
  rewrite (get_id_new _ _ Hid). simpl.
  rewrite (size_to_int_exact _ Hlen).
  intros city' id'. simpl. rewrite vec_at_snoc.
  destruct (decide (city' = city)) as [->|Hne].
  - rewrite lookup_insert_eq. split.
    + intros [= <-]. by right.
    + intros [H%Hok|[-> _]]; [congruence|done].
  - rewrite lookup_insert_ne by done. rewrite (Hok city' id').
    split; [by left|]. intros [?|[_ ?]]; done.
Qed.

Lemma registry_ok_empty : registry_ok empty_registry.
Proof.
  intros city id. simpl. rewrite lookup_empty. split; [done|].
  by intros [_ ?]%vec_at_Some.
Qed.

Lemma registry_ok_NoDup r : registry_ok r → NoDup (id_to_city r).
Proof.
  intros Hok. apply NoDup_alt. intros i j city Hi Hj.
  assert (city_to_id r !! city = Some (Z.of_nat i)) as H1.
  { apply Hok, vec_at_Some. split; [lia|]. by rewrite Nat2Z.id. }
  assert (city_to_id r !! city = Some (Z.of_nat j)) as H2.
  { apply Hok, vec_at_Some. split; [lia|]. by rewrite Nat2Z.id. }
  rewrite H1 in H2. injection H2. lia.
Qed.

Lemma register_all_snoc cities city :
  register_all (cities ++ [city]) = (get_id city (register_all cities)).2.
Proof. unfold register_all. by rewrite foldl_snoc. Qed.

Lemma get_id_names city r city' :
  registry_ok r → Z.of_nat (length (id_to_city r)) ≤ INT_MAX →
  city' ∈ id_to_city (get_id city r).2 ↔ city' ∈ id_to_city r ∨ city' = city.
Proof.
  intros Hok Hlen.
  destruct (city_to_id r !! city) as [id|] eqn:Hid.
  - rewrite (get_id_known _ _ _ Hid). simpl. split; [by left|].
    intros [?| ->]; [done|]. apply Hok in Hid as [_ Hid]%vec_at_Some.
    by eapply list_elem_of_lookup_2.
  - rewrite (get_id_new _ _ Hid). simpl.
    by rewrite elem_of_app, list_elem_of_singleton.
Qed.

Lemma register_all_ok (cities : list string) :
  Z.of_nat (length cities) ≤ INT_MAX →
  registry_ok (register_all cities) ∧
  (length (id_to_city (register_all cities)) ≤ length cities)%nat ∧
  ∀ city, city ∈ id_to_city (register_all cities) ↔ city ∈ cities.
Proof.
  induction cities as [|city cities IH] using rev_ind; intros Hlen.
  - split; [apply registry_ok_empty|]. split; [done|]. done.
  - rewrite length_app in Hlen. simpl in Hlen.
    destruct IH as (Hok & Hle & Hnames); [lia|].
    rewrite register_all_snoc. split; [apply get_id_ok; [done|lia]|]. split.
    + pose proof (get_id_length city (register_all cities)).
      rewrite length_app. simpl. lia.
    + intros city'. rewrite get_id_names by (done || lia).
      rewrite elem_of_app, list_elem_of_singleton, Hnames. done.
Qed.

(** X12. Starting from empty containers, after any sequence of fewer than
    [2 ^ 31] calls of [get_id] the map and the vector are inverse of each
    other: [city_to_id[c] = i] exactly when [id_to_city[i] = c].  So no
    name is stored twice, the names stored are the names asked for, and
    the ids are the indices [0 .. size - 1]. *)
Theorem X12_get_id_keeps_containers_inverse (cities : list string) :
  Z.of_nat (length cities) ≤ INT_MAX →
  registry_ok (register_all cities) ∧
  NoDup (id_to_city (register_all cities)) ∧
  (∀ city, city ∈ id_to_city (register_all cities) ↔ city ∈ cities) ∧
  (∀ city id, city_to_id (register_all cities) !! city = Some id →
     0 ≤ id < Z.of_nat (length (id_to_city (register_all cities)))).
Proof.
  intros Hlen. destruct (register_all_ok cities Hlen) as (Hok & _ & Hnames).
  split; [done|]. split; [by apply registry_ok_NoDup|]. split; [done|].
  intros city id [Hid Hcity]%Hok%vec_at_Some.
  apply lookup_lt_Some in Hcity. lia.
Qed.

Lemma X12_witness :
  registry_ok (register_all ["Paris"; "Rome"; "Paris"]) ∧
  NoDup (id_to_city (register_all ["Paris"; "Rome"; "Paris"])) ∧
  (∀ city, city ∈ id_to_city (register_all ["Paris"; "Rome"; "Paris"]) ↔
     city ∈ ["Paris"; "Rome"; "Paris"]) ∧
  (∀ city id,
     city_to_id (register_all ["Paris"; "Rome"; "Paris"]) !! city = Some id →
     0 ≤ id <
       Z.of_nat (length (id_to_city (register_all ["Paris"; "Rome"; "Paris"])))).
Proof.
  apply (X12_get_id_keeps_containers_inverse ["Paris"; "Rome"; "Paris"]).
  unfold INT_MAX. simpl. lia.
Defined.

(** X13. Round trip: when the containers are inverse of each other and
    hold at most [INT_MAX] names, the id that [get_id] returns for a city
    is an index of the vector, and the name stored there is that city. *)
Theorem X13_get_id_round_trip (city : string) (r : registry) :
  registry_ok r → Z.of_nat (length (id_to_city r)) ≤ INT_MAX →
  vec_at (id_to_city (get_id city r).2) (get_id city r).1 = Some city.
Proof.
  intros Hok Hlen. apply (get_id_ok city r Hok Hlen). apply get_id_lookup.
Qed.

Lemma X13_witness :
  vec_at (id_to_city (get_id "Rome" (register_all ["Paris"; "Rome"])).2)
         (get_id "Rome" (register_all ["Paris"; "Rome"])).1 = Some "Rome".
Proof.
  apply (X13_get_id_round_trip "Rome" (register_all ["Paris"; "Rome"])).
  - apply register_all_ok. unfold INT_MAX. simpl. lia.
  - unfold INT_MAX. vm_compute. discriminate.
Defined.

(** X14. Asking again changes nothing: a second call of [get_id] for the
    same city returns the same id and leaves both containers as they are;
    and a call for any city keeps the id of every city already in the
    map and only ever appends to the vector. *)
Theorem X14_get_id_is_stable (city : string) (r : registry) :
  get_id city (get_id city r).2 = get_id city r ∧
  (∀ other id, city_to_id r !! other = Some id →
     city_to_id (get_id city r).2 !! other = Some id) ∧
  id_to_city r `prefix_of` id_to_city (get_id city r).2.
Proof.
  split; [|split].
  - rewrite (get_id_known city (get_id city r).2 (get_id city r).1).
    + by destruct (get_id city r).
    + apply get_id_lookup.
  - intros other id Hother.
    destruct (city_to_id r !! city) as [id'|] eqn:Hid.
    + by rewrite (get_id_known _ _ _ Hid).
    + rewrite (get_id_new _ _ Hid). simpl.
      rewrite lookup_insert_ne; [done|]. intros ->. congruence.
  - destruct (city_to_id r !! city) as [id'|] eqn:Hid.
    + by rewrite (get_id_known _ _ _ Hid).
    + rewrite (get_id_new _ _ Hid). simpl. by apply prefix_app_r.
Qed.

(** X15. When the containers are inverse of each other and hold fewer
    than [INT_MAX] names, two different cities never get the same id. *)
Theorem X15_get_id_distinct_cities (city1 city2 : string) (r : registry) :
  registry_ok r → Z.of_nat (length (id_to_city r)) < INT_MAX →
  city1 ≠ city2 →
  (get_id city1 r).1 ≠ (get_id city2 (get_id city1 r).2).1.
Proof.
  intros Hok Hlen Hne Heq.
  set (r1 := (get_id city1 r).2) in *.
  assert (registry_ok r1) as Hok1 by (apply get_id_ok; [done|lia]).
  assert (Z.of_nat (length (id_to_city r1)) ≤ INT_MAX) as Hlen1.
  { pose proof (get_id_length city1 r). unfold r1. lia. }
  pose proof (get_id_ok city2 r1 Hok1 Hlen1) as Hok2.
  pose proof (get_id_lookup city2 r1) as H2.
  pose proof (get_id_lookup city1 r) as H1. fold r1 in H1.
  assert (city_to_id (get_id city2 r1).2 !! city1 = Some (get_id city1 r).1)
    as H1'.
  { destruct (city_to_id r1 !! city2) as [id'|] eqn:Hid.
    - by rewrite (get_id_known _ _ _ Hid).
    - rewrite (get_id_new _ _ Hid). simpl. by rewrite lookup_insert_ne. }
  rewrite Heq in H1'. apply Hok2 in H1', H2. congruence.
Qed.

Lemma X15_witness :
  (get_id "Paris" (register_all ["Rome"])).1 ≠
  (get_id "Berlin" (get_id "Paris" (register_all ["Rome"])).2).1.
Proof.
  apply (X15_get_id_distinct_cities "Paris" "Berlin" (register_all ["Rome"])).
  - apply register_all_ok. unfold INT_MAX. simpl. lia.
  - unfold INT_MAX. vm_compute. reflexivity.
  - discriminate.
Defined.

(** ** [main] *)

(** One row [{get_id(from), get_id(to), cost}] of the flight data; the
    elements of a braced list are evaluated from left to right. *)
Definition flight_row (from to_ : string) (cost_ : Z) (r : registry)
  : list Z * registry :=
  let '(u, r) := get_id from r in
  let '(v, r) := get_id to_ r in
  ([u; v; cost_], r).

(** The data that [main] hands to [findCheapestPrice]:
    [flights_list], [num_cities], [start_node] and [end_node]. *)
Definition main_data : list (list Z) * Z * Z * Z :=
  let r := empty_registry in
  let '(f1, r) := flight_row "New York" "London" 500 r in
  let '(f2, r) := flight_row "New York" "Paris" 600 r in
  let '(f3, r) := flight_row "London" "Paris" 150 r in
  let '(f4, r) := flight_row "London" "Berlin" 200 r in
  let '(f5, r) := flight_row "Paris" "Berlin" 180 r in
  let '(f6, r) := flight_row "Paris" "Rome" 250 r in
  let '(f7, r) := flight_row "Berlin" "Rome" 300 r in
  let '(f8, r) := flight_row "Rome" "New York" 700 r in
  let flights_list := [f1; f2; f3; f4; f5; f6; f7; f8] in
  let num_cities := size_to_int (length (id_to_city r)) in
  let '(start_node, r) := get_id "New York" r in
  let '(end_node, r) := get_id "Rome" r in
  (flights_list, num_cities, start_node, end_node).

Definition route_found (max_stops cheapest_price : Z) : string :=
  "Cheapest price from New York to Rome with at most " +:+ pretty max_stops
  +:+ " stop(s): $" +:+ pretty cheapest_price.

Definition no_route_found (max_stops : Z) : string :=
  "No route found from New York to Rome with at most " +:+ pretty max_stops
  +:+ " stop(s).".

(** [main]: the lines written to [std::cout] and the exit status, or
    nothing when a call faults. *)
Definition main {PQ : PriorityQueue} : option (list string * Z) :=
  let '(flights_list, num_cities, start_node, end_node) := main_data in
  let max_stops := 1 in
  match findCheapestPrice num_cities flights_list start_node end_node
          max_stops with
  | Fault => None
  | Ret cheapest_price =>
      let out1 :=
        if decide (cheapest_price = -1) then [no_route_found max_stops]
        else [route_found max_stops cheapest_price] in
      let max_stops := 2 in
      match findCheapestPrice num_cities flights_list start_node end_node
              max_stops with
      | Fault => None
      | Ret cheapest_price =>
          let out2 :=
            if decide (cheapest_price ≠ -1)
            then [route_found max_stops cheapest_price] else [] in
          Some (out1 ++ out2, 0)
      end
  end.

(** Rows of flight data built one after the other, as in [main]. *)
Fixpoint flight_rows (rows : list (string * string * Z)) (r : registry)
  : list (list Z) * registry :=
  match rows with
  | [] => ([], r)
  | (from, to_, cost_) :: rest =>
      let '(flight, r) := flight_row from to_ cost_ r in
      let '(flights, r) := flight_rows rest r in
      (flight :: flights, r)
  end.

Lemma get_id_inside city r :
  registry_ok r → Z.of_nat (length (id_to_city r)) ≤ INT_MAX →
  0 ≤ (get_id city r).1 < Z.of_nat (length (id_to_city (get_id city r).2)).
Proof.
  intros Hok Hlen.
  pose proof (proj1 (get_id_ok city r Hok Hlen _ _) (get_id_lookup city r))
    as H.
  apply vec_at_Some in H as [? H%lookup_lt_Some]. lia.
Qed.

Lemma get_id_grows city r :
  (length (id_to_city r) ≤ length (id_to_city (get_id city r).2))%nat.
Proof.
  destruct (city_to_id r !! city) as [id|] eqn:Hid.
  - by rewrite (get_id_known _ _ _ Hid).
  - rewrite (get_id_new _ _ Hid). simpl. rewrite length_app. lia.
Qed.

Lemma flight_rows_valid rows r :
  registry_ok r →
  Z.of_nat (length (id_to_city r)) + 2 * Z.of_nat (length rows) ≤ INT_MAX →
  registry_ok (flight_rows rows r).2 ∧
  (length (id_to_city r) ≤ length (id_to_city (flight_rows rows r).2))%nat ∧
  Z.of_nat (length (id_to_city (flight_rows rows r).2))
    ≤ Z.of_nat (length (id_to_city r)) + 2 * Z.of_nat (length rows) ∧
  Forall (valid_flight (Z.of_nat (length (id_to_city (flight_rows rows r).2))))
    (flight_rows rows r).1.
Proof.
  revert r. induction rows as [|[[from to_] cost_] rows IH]; intros r Hok Hlen.
  { simpl. split; [done|]. split; [done|]. split; [lia|constructor]. }
  simpl in Hlen. simpl. unfold flight_row.
  pose proof (get_id_ok from r Hok ltac:(lia)) as Hok1.
  pose proof (get_id_inside from r Hok ltac:(lia)) as Hu.
  pose proof (get_id_length from r) as Hlen1.
  pose proof (get_id_grows from r) as Hgrow1.
  destruct (get_id from r) as [u r1]. simpl in *.
  pose proof (get_id_ok to_ r1 Hok1 ltac:(lia)) as Hok2.
  pose proof (get_id_inside to_ r1 Hok1 ltac:(lia)) as Hv.
  pose proof (get_id_length to_ r1) as Hlen2.
  pose proof (get_id_grows to_ r1) as Hgrow2.
  destruct (get_id to_ r1) as [v r2]. simpl in *.
  destruct (IH r2 Hok2 ltac:(lia)) as (Hok3 & Hgrow3 & Hlen3 & Hall).
  destruct (flight_rows rows r2) as [flights r3]. simpl in *.
  split; [done|]. split; [lia|]. split; [lia|].
  constructor; [simpl; lia|done].
Qed.

(** X16. The ids that [get_id] hands out are valid arguments for the
    search.  When rows [{get_id(from), get_id(to), cost}] are built one
    after the other from empty containers, as [main] does, and
    [num_cities] is then taken as the size of the vector of names, every
    row has both cities in [[0, num_cities)]. *)
Theorem X16_rows_built_with_get_id_are_valid
    (rows : list (string * string * Z)) :
  2 * Z.of_nat (length rows) ≤ INT_MAX →
  Forall
    (valid_flight
       (size_to_int (length (id_to_city (flight_rows rows empty_registry).2))))
    (flight_rows rows empty_registry).1.
Proof.
  intros Hlen.
  destruct (flight_rows_valid rows empty_registry registry_ok_empty)
    as (_ & _ & Hle & Hall); [simpl; lia|].
  simpl in Hle. rewrite size_to_int_exact by lia. done.
Qed.

Lemma X16_witness :
  Forall
    (valid_flight
       (size_to_int
          (length (id_to_city
             (flight_rows [("Paris", "Rome", 250); ("Rome", "Paris", 260)]
                empty_registry).2))))
    (flight_rows [("Paris", "Rome", 250); ("Rome", "Paris", 260)]
       empty_registry).1.
Proof.
  apply (X16_rows_built_with_get_id_are_valid
           [("Paris", "Rome", 250); ("Rome", "Paris", 260)]).
  unfold INT_MAX. simpl. lia.
Defined.

Lemma main_data_eq : main_data = (example_flights, 5, 0, 4).
Proof. vm_compute. reflexivity. Qed.

Lemma example_any_queue (PQ : PriorityQueue) k :
  0 ≤ k ≤ 2 →
  findCheapestPrice 5 example_flights 0 4 k =
  findCheapestPrice (PQ := ListQueue) 5 example_flights 0 4 k.
Proof.
  intros Hk. apply queue_independent.
  - exact example_valid.
  - unfold INT_MAX. lia.
  - exact example_nonneg.
  - apply example_fit. lia.
Qed.

(** X17. [get_id] numbers the cities of [main] in the order in which they
    first appear (New York 0, London 1, Paris 2, Berlin 3, Rome 4), so that
    [main] searches the five-city graph from 0 to 4; with any
    implementation of the queue it prints the price 850 for one stop and
    for two stops and returns 0. *)
Theorem X17_main_output (PQ : PriorityQueue) :
  main_data = (example_flights, 5, 0, 4) ∧
  main = Some
    (["Cheapest price from New York to Rome with at most 1 stop(s): $850";
      "Cheapest price from New York to Rome with at most 2 stop(s): $850"],
     0).
Proof.
  split; [exact main_data_eq|]. unfold main. rewrite main_data_eq.
  rewrite (example_any_queue PQ 1), (example_any_queue PQ 2) by lia.
  replace (findCheapestPrice (PQ := ListQueue) 5 example_flights 0 4 1)
    with (Ret 850) by (vm_compute; reflexivity).
  replace (findCheapestPrice (PQ := ListQueue) 5 example_flights 0 4 2)
    with (Ret 850) by (vm_compute; reflexivity).
  reflexivity.
Qed.
